(** * Sentiment service: batching scheduler, model lifecycle, change watcher

    A shallow embedding of [backend/sentiment.py] and of the [predict]
    resolver of [backend/app.py], with the properties of the batching
    worker, of [load_model] and of the file watcher stated over it.

    Python values are modelled as follows.
    - [str] is a list of Unicode code points.
    - An exception raised by a call is a value of [exn]; a call that may
      raise returns [exn + A].
    - An [asyncio.Future] is a cell of a heap of futures, named by the
      index at which it was allocated.
    - Time is a rational number of seconds. *)

From Stdlib Require Import List ZArith NArith QArith Bool Lia String Ascii.
From stdpp Require Import base numbers list gmap.
Import ListNotations.

Set Default Proof Using "Type".
Local Open Scope Z_scope.
Local Open Scope list_scope.

(** ** Python strings *)

Module Py.

Definition str := list N.

(** A string literal of the source (ASCII only). *)
Definition lit (s : string) : str := map N_of_ascii (list_ascii_of_string s).

Definition str_eqb (a b : str) : bool := bool_decide (a = b).

(** [str.isspace] on one character: the code points CPython's
    [_PyUnicode_IsWhitespace] accepts. *)
Definition isspace (c : N) : bool :=
  ((9 <=? c) && (c <=? 13) || (28 <=? c) && (c <=? 32)
   || (c =? 133) || (c =? 160) || (c =? 5760)
   || (8192 <=? c) && (c <=? 8202)
   || (c =? 8232) || (c =? 8233) || (c =? 8239) || (c =? 8287)
   || (c =? 12288))%N.

Fixpoint lstrip (s : str) : str :=
  match s with
  | c :: t => if isspace c then lstrip t else s
  | [] => []
  end.

Definition rstrip (s : str) : str := rev (lstrip (rev s)).

(** [s.strip()] with no argument. *)
Definition strip (s : str) : str := rstrip (lstrip s).

(** Truth value of a string: [not s] holds exactly for the empty string. *)
Definition truthy (s : str) : bool :=
  match s with [] => false | _ => true end.

(** [str.upper] on one character.  Only the characters whose upper case
    is one ASCII letter are mapped; these are the ASCII lower-case
    letters, the dotless i (U+0131, upper case I) and the long s (U+017F,
    upper case S).  Every other code point is kept, which is not Python's
    answer for the other letters; it is the same answer wherever the
    source uses [upper], in the comparison with POSITIVE, since no other
    character has an upper case made of the letters of that word. *)
Definition upper_char (c : N) : N :=
  (if (97 <=? c) && (c <=? 122) then c - 32
   else if c =? 305 then 73
   else if c =? 383 then 83
   else c)%N.

Definition upper (s : str) : str := map upper_char s.

Fixpoint startswith (s p : str) {struct p} : bool :=
  match p, s with
  | [], _ => true
  | a :: p', b :: s' => (a =? b)%N && startswith s' p'
  | _ :: _, [] => false
  end.

(** [needle in hay] for strings: substring search. *)
Fixpoint contains (hay needle : str) : bool :=
  startswith hay needle ||
  match hay with
  | [] => false
  | _ :: t => contains t needle
  end.

(** [os.path.join(a, b)] for a relative [b] and a non-empty [a] that does
    not end in a separator. *)
Definition path_join (a b : str) : str := a ++ lit "/" ++ b.

(** Exceptions: the instances of [Exception], which are what the
    [except Exception] clauses of the source catch.  [OtherError] stands
    for whatever else a collaborator (the transformers library, the
    model) raises. *)
Inductive exn :=
| ValueError (msg : str)
| RuntimeError (msg : str)
| AttributeError (attr : str)
| InvalidStateError
| StopIteration
| TypeError (msg : str)
| OtherError (code : nat).

(** A Python float, by its IEEE-754 binary64 bit pattern. *)
Record pyfloat := PyFloat { float_bits : N }.

End Py.
Import Py.

(** ** [RequestBatcher] *)

Module Batcher.

(** A future is named by its allocation index in the heap of futures. *)
Abbreviation fid := nat.

(** A queue item: the tuple [(text, future)]. *)
Abbreviation request := (str * fid)%type.

(** Every call of [set_result] or [set_exception] the worker makes, in
    order, whether it succeeded or raised. *)
Abbreviation trace R := (list (fid * (exn + R))).

Section RequestBatcher.

(** The type of one element of what [predict_func] returns. *)
Context {R : Type}.

(** State of an [asyncio.Future]: pending, or finished with a result or an
    exception. *)
Inductive fstate :=
| Pending
| Finished (v : exn + R).

(** Finishing a future: [InvalidStateError] unless the future is
    pending. *)
Definition set_future (f : fid) (v : exn + R) (h : list fstate)
  : exn + list fstate :=
  match h !! f with
  | Some Pending => inr (<[f := Finished v]> h)
  | _ => inl InvalidStateError
  end.

(** [future.set_result]. *)
Definition set_result (f : fid) (r : R) (h : list fstate)
  : exn + list fstate :=
  set_future f (inr r) h.

(** A future takes every exception but [StopIteration]. *)
Definition refused (e : exn) : bool :=
  match e with
  | StopIteration => true
  | _ => false
  end.

(** What [Future.set_exception] raises for a [StopIteration]. *)
Definition stop_iteration_refused : exn :=
  TypeError (lit "StopIteration interacts badly with generators "
             ++ lit "and cannot be raised into a Future").

(** [future.set_exception]: [InvalidStateError] unless the future is
    pending; on a pending future, [TypeError] for a [StopIteration], which
    asyncio does not let into a future. *)
Definition set_exception (f : fid) (e : exn) (h : list fstate)
  : exn + list fstate :=
  match h !! f with
  | Some Pending =>
      if refused e then inl stop_iteration_refused
      else inr (<[f := Finished (inl e)]> h)
  | _ => inl InvalidStateError
  end.

(** [for future, result in zip(futures, results): future.set_result(result)]:
    stops at the first call that raises. *)
Fixpoint set_results (pairs : list (fid * R)) (h : list fstate)
         (tr : trace R) : list fstate * trace R * option exn :=
  match pairs with
  | [] => (h, tr, None)
  | (f, r) :: rest =>
      match set_result f r h with
      | inr h' => set_results rest h' (tr ++ [(f, inr r)])
      | inl e => (h, tr ++ [(f, inr r)], Some e)
      end
  end.

(** [for future in futures: future.set_exception(e)]. *)
Fixpoint set_exceptions (futs : list fid) (e : exn) (h : list fstate)
         (tr : trace R) : list fstate * trace R * option exn :=
  match futs with
  | [] => (h, tr, None)
  | f :: rest =>
      match set_exception f e h with
      | inr h' => set_exceptions rest e h' (tr ++ [(f, inl e)])
      | inl e' => (h, tr ++ [(f, inl e)], Some e')
      end
  end.

(** [predict_func n texts] is what the [n]-th call of [self.predict_func]
    (counting from 0) does on [texts]: it raises or returns a list. *)
Variable predict_func : nat -> list str -> exn + list R.
Variable batch_size : Z.

(** The batcher and its worker thread.
    - [queue]: [self.queue], oldest item first.
    - [futures]: the futures created by [submit].
    - [items]: [None] when the worker is at the first [get] of the outer
      loop (line 59), [Some items] when it is at the [get] of the inner loop
      (line 65) with [items] collected so far.
    - [log]: the batches [predict_func] was called on, in order.
    - [calls]: the [set_result] and [set_exception] calls made.
    - [dead]: the exception that ended the worker thread, if any. *)
Record state := State {
  queue : list request;
  futures : list fstate;
  items : option (list request);
  log : list (list request);
  calls : trace R;
  dead : option exn
}.

Definition init : state := State [] [] None [] [] None.

(** [submit] up to its [await]: a new future is created and queued. *)
Definition submit (text : str) (st : state) : fid * state :=
  let f := length (futures st) in
  (f, State (queue st ++ [(text, f)]) (futures st ++ [Pending])
            (items st) (log st) (calls st) (dead st)).

(** Lines 69 to 79: the batch [its] is handed to [predict_func] and the
    futures are fulfilled.  An exception of [set_result] is caught by the
    [except Exception] clause like one of [predict_func]; an exception of
    [set_exception] inside the handler leaves [_batch_worker]. *)
Definition process_batch (its : list request) (q : list request) (st : state)
  : state :=
  let texts := map fst its in
  let futs := map snd its in
  let lg := log st ++ [its] in
  let handler e h tr :=
    match set_exceptions futs e h tr with
    | (h', tr', None) => State q h' None lg tr' None
    | (h', tr', Some e') => State q h' None lg tr' (Some e')
    end in
  match predict_func (length (log st)) texts with
  | inl e => handler e (futures st) (calls st)
  | inr results =>
      match set_results (zip futs results) (futures st) (calls st) with
      | (h', tr', None) => State q h' None lg tr' None
      | (h', tr', Some e) => handler e h' tr'
      end
  end.

(** One [self.queue.get(timeout=self.max_latency)] of the worker returning:
    with the oldest item when the queue is not empty, with [Empty] when no
    item arrived within [max_latency]. *)
Definition worker_get (st : state) : state :=
  match dead st with
  | Some _ => st
  | None =>
      match queue st with
      | [] =>
          match items st with
          | None => st
          | Some its => process_batch its [] st
          end
      | x :: q =>
          let its := match items st with
                     | None => [x]
                     | Some its => its ++ [x]
                     end in
          if Z.of_nat (length its) <? batch_size
          then State q (futures st) (Some its) (log st) (calls st) (dead st)
          else process_batch its q st
      end
  end.

(** What happens to the batcher: a caller runs [submit] up to its [await],
    or a [get] of the worker returns.  Callers do not cancel, so futures
    are touched by the worker only. *)
Inductive event :=
| Submit (text : str)
| WorkerGet.

Definition step (st : state) (ev : event) : state :=
  match ev with
  | Submit text => snd (submit text st)
  | WorkerGet => worker_get st
  end.

Definition run (st : state) (sched : list event) : state :=
  fold_left step sched st.

(** The requests a schedule submits, oldest first. *)
Fixpoint requests_from (n : nat) (sched : list event) : list request :=
  match sched with
  | [] => []
  | Submit text :: rest => (text, n) :: requests_from (S n) rest
  | WorkerGet :: rest => requests_from n rest
  end.

Definition requests (sched : list event) : list request :=
  requests_from 0 sched.

(** The requests the worker holds or will get: those of the batch being
    collected, then the queue. *)
Definition pending (st : state) : list request :=
  default [] (items st) ++ queue st.

(** The [set_result] or [set_exception] calls the worker makes for the
    [k]-th batch [b] when the futures of [b] are pending: one for each
    pair of [zip], or one for each future; when the exception is refused,
    the first call is the last. *)
Definition expected (k : nat) (b : list request) : trace R :=
  match predict_func k (map fst b) with
  | inr rs => map (fun fr => (fst fr, inr (snd fr))) (zip (map snd b) rs)
  | inl e =>
      map (fun f => (f, inl e))
          (if refused e then take 1 (map snd b) else map snd b)
  end.

(** [predict_func] raises [StopIteration] on the [k]-th batch [b]. *)
Definition stops (k : nat) (b : list request) : bool :=
  match predict_func k (map fst b) with
  | inl e => refused e
  | inr _ => false
  end.

(** What the [k]-th batch [b] ends the worker with, if it does. *)
Definition ended (k : nat) (b : list request) : option exn :=
  match b with
  | [] => None
  | _ :: _ => if stops k b then Some stop_iteration_refused else None
  end.

(** *** Notions the properties are stated with *)

(** [predict_func] returns at least one element for each text. *)
Definition returns_enough : Prop :=
  forall k texts rs,
    predict_func k texts = inr rs -> (length texts <= length rs)%nat.

(** [predict_func] never raises [StopIteration]. *)
Definition never_stops : Prop :=
  forall k texts, predict_func k texts <> inl StopIteration.

(** The [get]s of a schedule. *)
Definition gets (sched : list event) : nat :=
  length (List.filter
            (fun ev => match ev with WorkerGet => true | _ => false end)
            sched).

(** No [get] of the schedule runs into its timeout: each finds an item
    in the queue. *)
Fixpoint no_timeout (st : state) (sched : list event) : bool :=
  match sched with
  | [] => true
  | ev :: rest =>
      match ev, queue st with
      | WorkerGet, [] => false
      | _, _ => no_timeout (step st ev) rest
      end
  end.

(** The largest batch: [batch_size], or one when it is smaller. *)
Definition width : nat := Z.to_nat (Z.max 1 batch_size).

(** What a call with [v] leaves in a pending future. *)
Definition landed (v : exn + R) : fstate :=
  match v with
  | inl e => if refused e then Pending else Finished v
  | inr _ => Finished v
  end.

(** The heap after the calls [l], each on a pending future. *)
Definition fill (l : trace R) (h : list fstate) : list fstate :=
  fold_left (fun h fv => <[fst fv := landed (snd fv)]> h) l h.

(** The calls of all batches of the log, in order. *)
Definition plan (lg : list (list request)) : trace R :=
  concat (imap expected lg).

(** The invariant of the futures.  [reqs] are the requests submitted so
    far, [lg] the batches handed to [predict_func], [pend] the requests
    not yet in a batch, [h] the futures and [tr] the calls made on them:
    the batches and the requests to come are the requests submitted, in
    order; the futures are numbered in that order; the calls made are
    those of the batches; each call left its value in its future, or left
    it pending when it was refused; the futures of the requests to come
    are pending. *)
Record good (reqs : list request) (lg : list (list request))
       (pend : list request) (h : list fstate) (tr : trace R) : Prop := Good {
  good_fifo : concat lg ++ pend = reqs;
  good_ids : map snd reqs = seq 0 (length h);
  good_calls : tr = plan lg;
  good_done : forall f v, In (f, v) tr -> h !! f = Some (landed v);
  good_pending : forall f, In f (map snd pend) -> h !! f = Some Pending
}.

(** The invariant of the batcher: the futures are [good], the batch
    being collected is not empty and not full, the batches handed over
    were not empty and not too large, and the worker has only ended if
    [predict_func] raised [StopIteration] on a batch. *)
Record batcher_inv (reqs : list request) (st : state) : Prop := BatcherInv {
  inv_dead :
    forall e, dead st = Some e ->
      e = stop_iteration_refused
      /\ exists k b, log st !! k = Some b /\ stops k b = true;
  inv_good : good reqs (log st) (pending st) (futures st) (calls st);
  inv_items :
    forall its, items st = Some its ->
      (1 <= length its)%nat /\ Z.of_nat (length its) < batch_size;
  inv_sizes :
    forall b, In b (log st) ->
      (1 <= length b)%nat
      /\ (1 <= batch_size -> Z.of_nat (length b) <= batch_size)
}.

(** Every batch handed over so far is full. *)
Definition full_log (st : state) : Prop :=
  forall b, In b (log st) -> Z.of_nat (length b) = batch_size.

(** Full batches, then at most one shorter batch. *)
Definition shaped (lg : list (list request)) : Prop :=
  exists full last,
    lg = full ++ last
    /\ (forall b, In b full -> Z.of_nat (length b) = batch_size)
    /\ (last = []
        \/ exists b, last = [b] /\ (1 <= length b)%nat
                     /\ Z.of_nat (length b) < batch_size).

(** How many of the first [n] requests are in no batch yet. *)
Definition undone (n : nat) (st : state) : nat :=
  (n - length (concat (log st)))%nat.

(** A bound on the [get]s it takes until the first [n] requests are all in
    a batch. *)
Definition potential (n : nat) (st : state) : nat :=
  match undone n st with
  | O => O
  | S _ => (undone n st * width
            + (width - 1 - length (default [] (items st))))%nat
  end.

End RequestBatcher.

Arguments fstate : clear implicits.
Arguments state : clear implicits.
Arguments good_fifo {R predict_func reqs lg pend h tr}.
Arguments good_ids {R predict_func reqs lg pend h tr}.
Arguments good_calls {R predict_func reqs lg pend h tr}.
Arguments good_done {R predict_func reqs lg pend h tr}.
Arguments good_pending {R predict_func reqs lg pend h tr}.
Arguments inv_dead {R predict_func batch_size reqs st}.
Arguments inv_good {R predict_func batch_size reqs st}.
Arguments inv_items {R predict_func batch_size reqs st}.
Arguments inv_sizes {R predict_func batch_size reqs st}.

End Batcher.

(** ** [SentimentAnalyzer]: [load_model] and [_predict_batch] *)

Module Analyzer.

(** An instance attribute such as [self.pipeline]: removed by [del], bound
    to [None], or bound to an object. *)
Inductive attr (A : Type) :=
| Unset
| PyNone
| Obj (a : A).
Arguments Unset {A}.
Arguments PyNone {A}.
Arguments Obj {A} a.

Inductive model_class :=
| AutoModelForSequenceClassification
| TFAutoModelForSequenceClassification.

(** One element of what the transformers pipeline returns. *)
Record raw_result := RawResult { raw_label : str; raw_score : pyfloat }.

(** One element of what [_predict_batch] returns. *)
Record prediction := Prediction { label : str; score : pyfloat }.

(** [float(x)] for [x] a float. *)
Definition float (x : pyfloat) : pyfloat := x.

(** The dict built at line 133. *)
Definition convert (res : raw_result) : prediction :=
  {| label := if str_eqb (upper (raw_label res)) (lit "POSITIVE")
              then lit "positive" else lit "negative";
     score := float (raw_score res) |}.

Section SentimentAnalyzer.

(** The objects of the transformers library are opaque. *)
Context {Tokenizer Model Pipeline : Type}.

Record analyzer := Build_analyzer {
  model_name : str;
  framework : str;
  model_path : str;
  pipeline : attr Pipeline
}.

(** What the analyzer calls: the file system and the transformers
    library.  Each library call returns or raises. *)
Record world := World {
  path_exists : str -> bool;
  tokenizer_from_pretrained : str -> exn + Tokenizer;
  model_from_pretrained : model_class -> str -> bool -> exn + Model;
  make_pipeline : Model -> Tokenizer -> str -> exn + Pipeline;
  call_pipeline : Pipeline -> list str -> exn + list raw_result
}.

Inductive message :=
| LoadingFineTuned
| LoadingPreTrained
| Loaded
| ErrorLoading (e : exn)
| BatchError (e : exn).

(** What a call does besides changing the analyzer, in order. *)
Inductive effect :=
| Log (m : message)
| TokenizerFromPretrained (src : str)
| ModelFromPretrained (cls : model_class) (src : str) (from_pt : bool)
| MakePipeline (fw : str)
| DelPipeline.

(** Code that reads and writes the analyzer, records its effects, and
    returns or raises. *)
Definition M (A : Type) : Type :=
  analyzer * list effect -> analyzer * list effect * (exn + A).

Definition ret {A} (x : A) : M A := fun s => (s, inr x).

Definition raise {A} (e : exn) : M A := fun s => (s, inl e).

Definition bind {A B} (m : M A) (k : A -> M B) : M B :=
  fun s =>
    match m s with
    | (s', inr x) => k x s'
    | (s', inl e) => (s', inl e)
    end.

(** [try: m except Exception as e: h e]. *)
Definition try_except {A} (m : M A) (h : exn -> M A) : M A :=
  fun s =>
    match m s with
    | (s', inl e) => h e s'
    | r => r
    end.

Definition emit (ef : effect) : M unit :=
  fun '(a, efs) => ((a, efs ++ [ef]), inr tt).

(** A library call: recorded, then its outcome. *)
Definition call {A} (ef : effect) (r : exn + A) : M A :=
  fun '(a, efs) => ((a, efs ++ [ef]), r).

Definition self : M analyzer := fun '(a, efs) => ((a, efs), inr a).

(** Reading [self.pipeline]: an [AttributeError] once the attribute has
    been removed. *)
Definition get_pipeline : M (option Pipeline) :=
  fun '(a, efs) =>
    match pipeline a with
    | Unset => ((a, efs), inl (AttributeError (lit "pipeline")))
    | PyNone => ((a, efs), inr None)
    | Obj p => ((a, efs), inr (Some p))
    end.

Definition write_pipeline (v : attr Pipeline) : M unit :=
  fun '(a, efs) =>
    ((Build_analyzer (model_name a) (framework a) (model_path a) v, efs),
     inr tt).

(** [del self.pipeline]. *)
Definition del_pipeline : M unit :=
  bind (emit DelPipeline) (fun _ => write_pipeline Unset).

Notation "x <- m ;; k" := (bind m (fun x => k))
  (at level 100, m at next level, right associativity).
Notation "m ;;; k" := (bind m (fun _ => k))
  (at level 100, right associativity).

(** Line 99. *)
Definition model_file (fw : str) : str :=
  if str_eqb fw (lit "pt") then lit "pytorch_model.bin" else lit "tf_model.h5".

(** Line 98. *)
Definition model_class_of (fw : str) : model_class :=
  if str_eqb fw (lit "pt") then AutoModelForSequenceClassification
  else TFAutoModelForSequenceClassification.

(** The condition of line 101. *)
Definition fine_tuned_present (w : world) (a : analyzer) : bool :=
  path_exists w (model_path a)
  && path_exists w (path_join (model_path a) (model_file (framework a))).

(** Lines 98 to 118: the body of the [try]. *)
Definition load_body (w : world) : M unit :=
  a <- self ;;
  let cls := model_class_of (framework a) in
  tm <- (if fine_tuned_present w a then
           emit (Log LoadingFineTuned) ;;;
           tokenizer <- call (TokenizerFromPretrained (model_path a))
                             (tokenizer_from_pretrained w (model_path a)) ;;
           model <- call (ModelFromPretrained cls (model_path a) false)
                         (model_from_pretrained w cls (model_path a) false) ;;
           ret (tokenizer, model)
         else
           emit (Log LoadingPreTrained) ;;;
           tokenizer <- call (TokenizerFromPretrained (model_name a))
                             (tokenizer_from_pretrained w (model_name a)) ;;
           let from_pt :=
             str_eqb (framework a) (lit "tf")
             && path_exists w (path_join (model_path a)
                                         (lit "pytorch_model.bin")) in
           model <- call (ModelFromPretrained cls (model_name a) from_pt)
                         (model_from_pretrained w cls (model_name a) from_pt) ;;
           ret (tokenizer, model)) ;;
  old <- get_pipeline ;;
  (match old with
   | Some _ => del_pipeline
   | None => ret tt
   end) ;;;
  p <- call (MakePipeline (framework a))
            (make_pipeline w (snd tm) (fst tm) (framework a)) ;;
  write_pipeline (Obj p) ;;;
  emit (Log Loaded).

(** [load_model], lines 96 to 123; the lock is released on every way out
    and is modelled apart. *)
Definition load_model (w : world) : M unit :=
  try_except (load_body w)
    (fun e =>
       emit (Log (ErrorLoading e)) ;;;
       cur <- get_pipeline ;;
       match cur with
       | None => raise e
       | Some _ => ret tt
       end).

(** [_predict_batch], lines 126 to 138. *)
Definition predict_batch (w : world) (texts : list str)
  : M (list prediction) :=
  cur <- get_pipeline ;;
  match cur with
  | None => raise (RuntimeError (lit "Model is not loaded."))
  | Some p =>
      try_except
        (results <- (fun s => (s, call_pipeline w p texts)) ;;
         ret (map convert results))
        (fun e => emit (Log (BatchError e)) ;;; raise e)
  end.

(** The analyzer as [__init__] leaves it before its call of [load_model]. *)
Definition new_analyzer (name fw : str) : analyzer :=
  Build_analyzer name fw (lit "./model") PyNone.

(** The sources the [from_pretrained] calls among [efs] were given. *)
Definition load_sources (efs : list effect) : list str :=
  flat_map (fun ef => match ef with
                      | TokenizerFromPretrained src => [src]
                      | ModelFromPretrained _ src _ => [src]
                      | _ => []
                      end) efs.

(** The [from_pretrained] calls among [efs], in order. *)
Definition from_pretrained_calls (efs : list effect) : list effect :=
  List.filter (fun ef => match ef with
                         | TokenizerFromPretrained _ => true
                         | ModelFromPretrained _ _ _ => true
                         | _ => false
                         end) efs.

End SentimentAnalyzer.

Arguments analyzer : clear implicits.
Arguments world : clear implicits.

End Analyzer.

(** ** [ModelChangeHandler] *)

Module Watcher.

(** The event classes of watchdog; [dispatch] of its
    [FileSystemEventHandler] routes an event to the method of its type. *)
Inductive event_type :=
| Created
| Modified
| Deleted
| Moved
| Closed
| Opened.

Record fs_event := FsEvent {
  kind : event_type;
  is_directory : bool;
  src_path : str
}.

Record handler := Handler {
  last_reload_time : Q;
  reload_cooldown : Q
}.

(** [__init__]. *)
Definition new_handler : handler := Handler 0 2.

Inductive effect :=
| LogTrigger (path : str)
| Sleep (seconds : Q)
| LoadModel.

Definition model_files : list str :=
  [lit "pytorch_model.bin"; lit "tf_model.h5"; lit "config.json";
   lit "tokenizer.json"; lit "tokenizer_config.json"].

(** [a > b] on times. *)
Definition gt (a b : Q) : bool := negb (Qle_bool a b).

(** [on_modified]; [now] is what [time.time()] returns at line 29. *)
Definition on_modified (h : handler) (now : Q) (ev : fs_event)
  : handler * list effect :=
  if negb (is_directory ev) then
    if existsb (fun mf => contains (src_path ev) mf) model_files then
      if gt (now - last_reload_time h) (reload_cooldown h) then
        (Handler now (reload_cooldown h),
         [LogTrigger (src_path ev); Sleep (1 # 2); LoadModel])
      else (h, [])
    else (h, [])
  else (h, []).

Definition on_created (h : handler) (now : Q) (ev : fs_event)
  : handler * list effect :=
  on_modified h now ev.

(** The methods the class does not override do nothing. *)
Definition dispatch (h : handler) (now : Q) (ev : fs_event)
  : handler * list effect :=
  match kind ev with
  | Created => on_created h now ev
  | Modified => on_modified h now ev
  | Deleted | Moved | Closed | Opened => (h, [])
  end.

End Watcher.

(** ** [load_lock]: the threads in [load_model] and [_predict_batch] *)

Module Locking.

(** Where a thread stands. *)
Inductive pc :=
| Idle
| LoadAcquiring      (* load_model, line 96, before the lock is acquired *)
| LoadInside         (* load_model, lines 97 to 123, holding the lock *)
| PredictChecking    (* _predict_batch, line 126 *)
| PredictAcquiring   (* _predict_batch, line 129, before the lock is acquired *)
| PredictInside.     (* _predict_batch, lines 130 to 138, holding the lock *)

(** [locked]: the state of the one [threading.Lock] of the analyzer. *)
Record sys := Sys {
  locked : bool;
  pcs : nat -> pc
}.

Definition init : sys := Sys false (fun _ => Idle).

Definition move (s : sys) (t : nat) (p : pc) (l : bool) : sys :=
  Sys l (fun u => if Nat.eqb u t then p else pcs s u).

(** What the scheduled thread does when it is idle, and how the test of
    line 126 comes out. *)
Inductive choice :=
| CallLoadModel
| CallPredictBatch
| Go (pipeline_bound : bool).

(** One step of thread [t].  Acquiring a held lock blocks: the thread
    stays where it is.  Leaving the [with] block, by return or by
    exception, releases the lock. *)
Definition step (s : sys) (tc : nat * choice) : sys :=
  let (t, c) := tc in
  match pcs s t, c with
  | Idle, CallLoadModel => move s t LoadAcquiring (locked s)
  | Idle, CallPredictBatch => move s t PredictChecking (locked s)
  | Idle, Go _ => s
  | LoadAcquiring, _ =>
      if locked s then s else move s t LoadInside true
  | LoadInside, _ => move s t Idle false
  | PredictChecking, Go false => move s t Idle (locked s)
  | PredictChecking, _ => move s t PredictAcquiring (locked s)
  | PredictAcquiring, _ =>
      if locked s then s else move s t PredictInside true
  | PredictInside, _ => move s t Idle false
  end.

Definition run (s : sys) (sched : list (nat * choice)) : sys :=
  fold_left step sched s.

Definition inside (p : pc) : bool :=
  match p with
  | LoadInside | PredictInside => true
  | _ => false
  end.

(** The lock is held exactly when one thread is inside a [with] block,
    and it is never more than one. *)
Record lock_inv (s : sys) : Prop := LockInv {
  free_none : locked s = false -> forall t, inside (pcs s t) = false;
  held_some : locked s = true -> exists t, inside (pcs s t) = true;
  at_most_one :
    forall t u, inside (pcs s t) = true -> inside (pcs s u) = true -> t = u
}.

End Locking.

(** ** [Query.predict] of [app.py] *)

Module Facade.

Import Batcher Analyzer.

Record SentimentResult := Build_SentimentResult {
  result_label : str;
  result_score : pyfloat
}.

(** [predict] up to its [await]: it has raised, or it waits for a
    future. *)
Inductive suspended :=
| Raised (e : exn)
| Awaiting (f : fid).

(** [SentimentAnalyzer.predict]: [self.batcher.submit(text)]. *)
Definition analyzer_predict (text : str) (st : state prediction)
  : fid * state prediction :=
  submit text st.

(** Lines 25 to 28. *)
Definition predict (text : str) (st : state prediction)
  : suspended * state prediction :=
  if negb (truthy (strip text))
  then (Raised (ValueError (lit "Text input cannot be empty.")), st)
  else let (f, st') := analyzer_predict text st in (Awaiting f, st').

(** Lines 28 and 29 once the future is finished. *)
Definition resume (v : exn + prediction) : exn + SentimentResult :=
  match v with
  | inr res => inr (Build_SentimentResult (label res) (score res))
  | inl e => inl e
  end.

End Facade.

(** ** The batcher of the analyzer, and scenarios *)

Module Service.

Import Batcher Analyzer.

Section WithLibrary.

Context {Tokenizer Model Pipeline : Type}.

(** [RequestBatcher(self._predict_batch)]: the [k]-th call runs on the
    analyzer as it stands then, [an k]; reloads may have changed it since
    the call before. *)
Definition analyzer_predict_func
           (w : world Tokenizer Model Pipeline) (an : nat -> analyzer Pipeline)
  : nat -> list str -> exn + list prediction :=
  fun k texts => snd (predict_batch w texts (an k, [])).

End WithLibrary.

(** The default of [batch_size]. *)
Definition default_batch_size : Z := 8.

(** Three callers submit at once; the prediction function returns the
    length of each text. *)
Definition sizes (k : nat) (texts : list str) : exn + list nat :=
  inr (map (@length N) texts).

(** The same, but the first call raises. *)
Definition first_fails (k : nat) (texts : list str) : exn + list nat :=
  if Nat.eqb k 0 then inl (OtherError 1) else sizes k texts.

(** A prediction function that loses the first text. *)
Definition one_short (k : nat) (texts : list str) : exn + list nat :=
  sizes k (tail texts).

(** A prediction function that raises [StopIteration]. *)
Definition stop_iteration (k : nat) (texts : list str) : exn + list nat :=
  inl StopIteration.

Definition three_at_once : list event :=
  [Submit (lit "great product"); Submit (lit "terrible"); Submit (lit "ok")].

Definition three_requests : list request :=
  [(lit "great product", 0%nat); (lit "terrible", 1%nat); (lit "ok", 2%nat)].

(** A reload whose pipeline cannot be built, on an analyzer that serves
    pipeline 0.  There is no fine-tuned model on disk, the tokenizer and
    the model load, and [pipeline(...)] raises. *)
Definition pipeline_fails : world unit unit nat :=
  World (fun _ => false)
        (fun _ => inr tt)
        (fun _ _ _ => inr tt)
        (fun _ _ _ => inl (OtherError 1))
        (fun _ _ => inr []).

Definition serving : analyzer nat :=
  Build_analyzer (lit "distilbert-base-uncased-finetuned-sst-2-english")
                 (lit "pt") (lit "./model") (Obj 0%nat).

(** The same collaborators once building the pipeline works again; the
    pipeline finds every text positive. *)
Definition pipeline_works : world unit unit nat :=
  World (fun _ => false)
        (fun _ => inr tt)
        (fun _ _ _ => inr tt)
        (fun _ _ _ => inr 1%nat)
        (fun _ texts =>
           inr (map (fun _ => RawResult (lit "POSITIVE") (PyFloat 0)) texts)).

(** The batcher of [serving] while no reload happens. *)
Definition serving_predict_func : nat -> list str -> exn + list prediction :=
  analyzer_predict_func pipeline_works (fun _ => serving).

End Service.

(** ** The handler over a stream of events *)

Module WatcherRun.

Import Watcher.

Definition is_load (ef : effect) : bool :=
  match ef with
  | LoadModel => true
  | _ => false
  end.

(** The observer thread hands the events to the handler one after the
    other.  Each event comes with what [time.time()] returns if line 29 is
    reached for it.  The result is the handler at the end and the times at
    which [load_model] was called, oldest first.  [last_reload_time] is
    written before [load_model] is called, so the handler is the same
    whether that call returns or raises; what is shown for every stream
    holds for the part of it that was handled, should the thread end
    early. *)
Fixpoint handle_all (h : handler) (evs : list (Q * fs_event))
  : handler * list Q :=
  match evs with
  | [] => (h, [])
  | (now, ev) :: rest =>
      let (h', efs) := dispatch h now ev in
      let (h'', ts) := handle_all h' rest in
      (h'', if existsb is_load efs then now :: ts else ts)
  end.

(** Each time of [ts] is more than [c] after the one before it, the first
    more than [c] after [last]. *)
Fixpoint spaced (c last : Q) (ts : list Q) : Prop :=
  match ts with
  | [] => True
  | t :: rest => (c < t - last)%Q /\ spaced c t rest
  end.

(** A save that writes three files within a second of each other, then a
    later one. *)
Definition one_save : list (Q * fs_event) :=
  [(1000%Q, FsEvent Created false (lit "./model/config.json"));
   ((2001 # 2)%Q, FsEvent Modified false (lit "./model/pytorch_model.bin"));
   (1001%Q, FsEvent Modified false (lit "./model/tokenizer.json"));
   (1010%Q, FsEvent Modified false (lit "./model/pytorch_model.bin"))].

End WatcherRun.

(** ** [load_dataset_from_jsonl] of [finetune.py] *)

Module Finetune.

#[global] Instance str_eq_dec : EqDecision str := list_eq_dec.
#[global] Instance str_countable : Countable str := list_countable.

(** What [json.loads] returns. *)
#[warnings="-register-all"]
Inductive json :=
| JNull
| JBool (b : bool)
| JInt (z : Z)
| JFloat (x : pyfloat)
| JStr (s : str)
| JArray (l : list json)
| JObject (m : gmap str json).

(** What the function raises: the exceptions of a subscript, and
    whatever the datasets library raises ([ArrowInvalid] on a column it
    cannot type, for one). *)
Inductive error :=
| KeyError (key : str)
| TypeError
| LibraryError (code : nat).

(** [item[key]] for a string [key]: only a dict can be subscripted by a
    string, and the key must be there. *)
Definition subscript (item : json) (key : str) : error + json :=
  match item with
  | JObject m =>
      match m !! key with
      | Some v => inr v
      | None => inl (KeyError key)
      end
  | _ => inl TypeError
  end.

(** A list comprehension whose element expression may raise: the first
    exception ends it. *)
Fixpoint comprehension {A B} (f : A -> error + B) (l : list A)
  : error + list B :=
  match l with
  | [] => inr []
  | x :: rest =>
      match f x with
      | inl e => inl e
      | inr y =>
          match comprehension f rest with
          | inl e => inl e
          | inr ys => inr (y :: ys)
          end
      end
  end.

(** [1 if item['label'] == 'positive' else 0]. *)
Definition label_of (item : json) : error + Z :=
  match subscript item (lit "label") with
  | inl e => inl e
  | inr (JStr s) => inr (if str_eqb s (lit "positive") then 1 else 0)
  | inr _ => inr 0
  end.

(** The dict handed to [Dataset.from_dict]. *)
Record columns := Columns {
  text : list json;
  label : list Z
}.

(** Lines 33 and 34: the two lists, which line 35 puts in the dict. *)
Definition build_columns (data : list json) : error + columns :=
  match comprehension (fun item => subscript item (lit "text")) data with
  | inl e => inl e
  | inr texts =>
      match comprehension label_of data with
      | inl e => inl e
      | inr labels => inr (Columns texts labels)
      end
  end.

Section FromDict.

(** The datasets of the datasets library are opaque, and so is
    [Dataset.from_dict]: it returns a dataset or raises. *)
Context {Dataset : Type}.
Variable from_dict : columns -> error + Dataset.

(** Lines 33 to 35, on the list [data] of the parsed lines. *)
Definition load_dataset_from_jsonl (data : list json) : error + Dataset :=
  match build_columns data with
  | inl e => inl e
  | inr cols => from_dict cols
  end.

End FromDict.

(** The item is a dict with the two keys. *)
Definition usable (item : json) : Prop :=
  exists m t l,
    item = JObject m /\ m !! lit "text" = Some t /\ m !! lit "label" = Some l.

End Finetune.

(** ** Notions the further properties are stated with *)

Module Notions.

Import Batcher Analyzer.

Section Loading.

Context {Tokenizer Model Pipeline : Type}.

(** The [from_pt] argument of the model's [from_pretrained]. *)
Definition from_pt_of (w : world Tokenizer Model Pipeline)
           (a : analyzer Pipeline) : bool :=
  negb (fine_tuned_present w a)
  && str_eqb (framework a) (lit "tf")
  && path_exists w (path_join (model_path a) (lit "pytorch_model.bin")).

Definition source_of (w : world Tokenizer Model Pipeline)
           (a : analyzer Pipeline) : str :=
  if fine_tuned_present w a then model_path a else model_name a.

End Loading.

Section Futures.

Context {R : Type}.

(** Every finished future of [h] was finished by a call of [tr]. *)
Definition accounted (h : list (fstate R)) (tr : trace R) : Prop :=
  forall f v, h !! f = Some (Finished v) -> In (f, v) tr.

End Futures.

(** A batcher with two queued requests; the caller of the first is gone
    and its future is done. *)
Definition one_done : state nat :=
  State [(lit "great product", 0%nat); (lit "terrible", 1%nat)]
        [Finished (inl (OtherError 9)); Pending] None [] [] None.

(** The tokenizer cannot be loaded. *)
Definition tokenizer_fails : world unit unit nat :=
  World (fun _ => false)
        (fun _ => inl (OtherError 2))
        (fun _ _ _ => inr tt)
        (fun _ _ _ => inr 1%nat)
        (fun _ _ => inr []).

(** [serving] after its pipeline was deleted. *)
Definition without_pipeline : analyzer nat :=
  Build_analyzer (model_name Service.serving) (framework Service.serving)
                 (model_path Service.serving) Unset.

(** A [from_dict] that takes the columns as they are when every text is
    a string, and raises otherwise. *)
Definition strings_only (cols : Finetune.columns)
  : Finetune.error + Finetune.columns :=
  if forallb (fun t => match t with
                       | Finetune.JStr _ => true
                       | _ => false
                       end) (Finetune.text cols)
  then inr cols else inl (Finetune.LibraryError 1).

(** Two lines of a data file, parsed. *)
Definition two_lines : list Finetune.json :=
  [Finetune.JObject
     {[ lit "text" := Finetune.JStr (lit "great product");
        lit "label" := Finetune.JStr (lit "positive") ]};
   Finetune.JObject
     {[ lit "text" := Finetune.JStr (lit "terrible");
        lit "label" := Finetune.JStr (lit "Negative") ]}].

End Notions.

(** * Properties *)

(** ** Strings *)

Module PyFacts.

Lemma lstrip_nil_iff (s : str) :
  lstrip s = [] <-> forallb isspace s = true.
Proof.
  induction s as [|c t IH]; simpl; [tauto|].
  destruct (isspace c); simpl; [exact IH|].
  split; discriminate.
Qed.

Lemma lstrip_all_space (s : str) :
  forallb isspace s = true -> lstrip s = [].
Proof. apply lstrip_nil_iff. Qed.

(** What [lstrip] leaves starts with a character that is not a space. *)
Lemma lstrip_head (s : str) (c : N) (t : str) :
  lstrip s = c :: t -> isspace c = false.
Proof.
  induction s as [|d u IH]; simpl; [discriminate|].
  destruct (isspace d) eqn:Hd; [exact IH|].
  intros [= -> _]. exact Hd.
Qed.

(** [strip] returns the empty string exactly on the strings made of
    white space only, the empty one among them. *)
Lemma strip_nil_iff (s : str) :
  strip s = [] <-> forallb isspace s = true.
Proof.
  unfold strip, rstrip. split.
  - intros H.
    destruct (lstrip s) as [|c t] eqn:Hl.
    + apply lstrip_nil_iff, Hl.
    + exfalso.
      apply (f_equal (@rev N)) in H. rewrite rev_involutive in H. simpl in H.
      apply lstrip_nil_iff in H.
      rewrite forallb_app in H. simpl in H.
      rewrite (lstrip_head _ _ _ Hl) in H.
      rewrite andb_false_r in H. discriminate.
  - intros H. rewrite (lstrip_all_space _ H). reflexivity.
Qed.

Lemma truthy_strip (s : str) :
  truthy (strip s) = negb (forallb isspace s).
Proof.
  destruct (forallb isspace s) eqn:H.
  - apply strip_nil_iff in H. rewrite H. reflexivity.
  - destruct (strip s) eqn:Hs; [|reflexivity].
    apply strip_nil_iff in Hs. congruence.
Qed.

Lemma startswith_spec (s p : str) :
  startswith s p = true <-> exists post, s = p ++ post.
Proof.
  revert s. induction p as [|a p IH]; intros s; simpl.
  - split; [exists s; reflexivity | reflexivity].
  - destruct s as [|b s].
    + split; [discriminate | intros [post H]; discriminate].
    + rewrite andb_true_iff, N.eqb_eq, IH. split.
      * intros [-> [post ->]]. exists post. reflexivity.
      * intros [post [= -> ->]].
        split; [reflexivity | exists post; reflexivity].
Qed.

(** [contains hay needle] is Python's [needle in hay]: the needle occurs
    somewhere in the string. *)
Lemma contains_spec (hay needle : str) :
  contains hay needle = true <-> exists pre post, hay = pre ++ needle ++ post.
Proof.
  induction hay as [|c t IH].
  - simpl. rewrite orb_false_r.
    destruct needle as [|a n]; simpl.
    + split; [exists [], []; reflexivity | reflexivity].
    + split; [discriminate|]. intros (pre & post & H).
      destruct pre; discriminate.
  - cbn [contains]. rewrite orb_true_iff, IH, startswith_spec. split.
    + intros [[post H] | (pre & post & H)].
      * exists [], post. exact H.
      * exists (c :: pre), post. simpl. congruence.
    + intros (pre & post & H). destruct pre as [|d pre].
      * left. exists post. exact H.
      * right. injection H as -> H. exists pre, post. exact H.
Qed.

End PyFacts.

(** ** The facade *)

Module FacadeFacts.

Import Batcher Analyzer Facade.

Lemma predict_blank (text : str) (st : state prediction) :
  forallb isspace text = true ->
  predict text st
  = (Raised (ValueError (lit "Text input cannot be empty.")), st).
Proof.
  intros H. unfold predict. rewrite PyFacts.truthy_strip, H. reflexivity.
Qed.

Lemma predict_not_blank (text : str) (st : state prediction) :
  forallb isspace text = false ->
  predict text st = (Awaiting (fst (submit text st)), snd (submit text st)).
Proof.
  intros H. unfold predict. rewrite PyFacts.truthy_strip, H. reflexivity.
Qed.

(** C7.  A text that is empty or made of white space only makes [predict]
    raise [ValueError] at once and leaves the batcher as it was: nothing is
    queued, no future is created, and whatever the worker does afterwards
    it does as if the call had not happened, so [predict_func] never sees
    the text.  Any other text is handed to [submit]: it is put at the end
    of the queue with a new future, and [predict] waits for that future. *)
Theorem predict_validates_then_submits (text : str) (st : state prediction) :
  (forallb isspace text = true ->
     predict text st
     = (Raised (ValueError (lit "Text input cannot be empty.")), st)
     /\ queue (snd (predict text st)) = queue st
     /\ futures (snd (predict text st)) = futures st
     /\ forall predict_func batch_size sched,
          run predict_func batch_size (snd (predict text st)) sched
          = run predict_func batch_size st sched)
  /\ (forallb isspace text = false ->
     predict text st = (Awaiting (fst (submit text st)), snd (submit text st))
     /\ fst (predict text st) = Awaiting (length (futures st))
     /\ queue (snd (predict text st))
        = queue st ++ [(text, length (futures st))]
     /\ futures (snd (predict text st)) = futures st ++ [Pending]).
Proof.
  split; intros H.
  - rewrite (predict_blank _ _ H). simpl. auto.
  - rewrite (predict_not_blank _ _ H). simpl. auto.
Qed.

Example predict_empty_text :
  fst (predict (lit "") init)
  = Raised (ValueError (lit "Text input cannot be empty.")).
Proof. reflexivity. Qed.

Example predict_spaces_and_tab :
  predict [32; 9; 10; 160; 8195]%N init
  = (Raised (ValueError (lit "Text input cannot be empty.")), init).
Proof. reflexivity. Qed.

Example predict_padded_text :
  predict (lit "  ok ") init
  = (Awaiting 0%nat,
     State [(lit "  ok ", 0%nat)] [Pending] None [] [] None).
Proof. reflexivity. Qed.

End FacadeFacts.

(** ** The analyzer *)

Module AnalyzerFacts.

Import Analyzer Service.

Lemma str_eqb_eq (a b : str) : str_eqb a b = true <-> a = b.
Proof. unfold str_eqb. apply bool_decide_eq_true. Qed.

(** Membership in an explicit list of effects. *)
Ltac in_log := simpl; repeat (first [left; reflexivity | right]).

Section Facts.

Context {Tokenizer Model Pipeline : Type}.
Abbreviation world := (world Tokenizer Model Pipeline).
Abbreviation analyzer := (analyzer Pipeline).

(** What [_predict_batch] returns is [convert] applied to each element
    of what the pipeline returned, in order. *)
Lemma predict_batch_returns (w : world) (a : analyzer) (efs : list effect)
      (texts : list str) (s' : analyzer * list effect) (rs : list prediction) :
  predict_batch w texts (a, efs) = (s', inr rs) ->
  exists p raws,
    pipeline a = Obj p /\ call_pipeline w p texts = inr raws
    /\ rs = map convert raws /\ s' = (a, efs).
Proof.
  unfold predict_batch, bind, get_pipeline, try_except, ret, raise, emit.
  destruct (pipeline a) as [| |p] eqn:Hp; try discriminate.
  destruct (call_pipeline w p texts) as [e|raws] eqn:Hc; try discriminate.
  intros [= <- <-]. exists p, raws. auto.
Qed.

(** A load that fails before the pipeline is rebuilt (the tokenizer or the
    model does not load) keeps the pipeline the analyzer had and
    returns. *)
Lemma load_model_keeps_pipeline_when_loading_fails
      (w : world) (a : analyzer) (p : Pipeline) (e : exn) :
  pipeline a = Obj p ->
  let src := if fine_tuned_present w a then model_path a else model_name a in
  (tokenizer_from_pretrained w src = inl e
   \/ (exists tok, tokenizer_from_pretrained w src = inr tok)
      /\ forall from_pt,
           model_from_pretrained w (model_class_of (framework a)) src from_pt
           = inl e) ->
  exists efs,
    load_model w (a, []) = ((a, efs), inr tt)
    /\ In (Log (ErrorLoading e)) efs.
Proof.
  intros Hp src H. subst src.
  unfold load_model, load_body, try_except, bind, self, emit, call, ret,
    raise, get_pipeline.
  destruct (fine_tuned_present w a) eqn:Hf; simpl.
  - destruct H as [H | [[tok Ht] H]].
    + rewrite H, Hp. eexists. split; [reflexivity | in_log].
    + rewrite Ht, (H false), Hp. eexists. split; [reflexivity | in_log].
  - destruct H as [H | [[tok Ht] H]].
    + rewrite H, Hp. eexists. split; [reflexivity | in_log].
    + rewrite Ht, H, Hp. eexists. split; [reflexivity | in_log].
Qed.

(** At first boot ([self.pipeline] is [None]) a load that fails raises
    out of [load_model]. *)
Lemma load_model_first_boot (w : world) (a : analyzer) :
  pipeline a = PyNone ->
  match load_model w (a, []) with
  | (a', _, inr _) => exists p, pipeline a' = Obj p
  | (a', efs, inl e) => pipeline a' = PyNone /\ In (Log (ErrorLoading e)) efs
  end.
Proof.
  intros Hp.
  unfold load_model, load_body, try_except, bind, self, emit, call, ret,
    raise, get_pipeline, write_pipeline.
  destruct (fine_tuned_present w a); simpl.
  - destruct (tokenizer_from_pretrained w (model_path a)) as [e|tok]; simpl.
    { rewrite Hp. simpl. split; [exact Hp | in_log]. }
    destruct (model_from_pretrained w _ (model_path a) false) as [e|m]; simpl.
    { rewrite Hp. simpl. split; [exact Hp | in_log]. }
    rewrite Hp. simpl.
    destruct (make_pipeline w m tok (framework a)) as [e|p]; simpl.
    { rewrite Hp. simpl. split; [exact Hp | in_log]. }
    eauto.
  - destruct (tokenizer_from_pretrained w (model_name a)) as [e|tok]; simpl.
    { rewrite Hp. simpl. split; [exact Hp | in_log]. }
    destruct (model_from_pretrained w _ (model_name a) _) as [e|m]; simpl.
    { rewrite Hp. simpl. split; [exact Hp | in_log]. }
    rewrite Hp. simpl.
    destruct (make_pipeline w m tok (framework a)) as [e|p]; simpl.
    { rewrite Hp. simpl. split; [exact Hp | in_log]. }
    eauto.
Qed.

(** A load that gets the tokenizer and the model but fails to build the
    pipeline has already removed [self.pipeline]: the handler's test of
    line 122 raises [AttributeError], which leaves [load_model], and the
    analyzer has no pipeline attribute any more. *)
Lemma load_model_pipeline_failure
      (w : world) (a : analyzer) (p : Pipeline) (e : exn) tok m :
  pipeline a = Obj p ->
  let src := if fine_tuned_present w a then model_path a else model_name a in
  tokenizer_from_pretrained w src = inr tok ->
  (forall from_pt,
     model_from_pretrained w (model_class_of (framework a)) src from_pt
     = inr m) ->
  make_pipeline w m tok (framework a) = inl e ->
  exists efs,
    load_model w (a, [])
    = ((Build_analyzer (model_name a) (framework a) (model_path a) Unset, efs),
       inl (AttributeError (lit "pipeline")))
    /\ In DelPipeline efs.
Proof.
  intros Hp src Ht Hm He. subst src.
  unfold load_model, load_body, try_except, bind, self, emit, call, ret,
    raise, get_pipeline, del_pipeline, write_pipeline.
  destruct (fine_tuned_present w a); simpl;
    rewrite Ht, Hm, Hp; simpl; rewrite He; simpl;
    (eexists; split; [reflexivity | in_log]).
Qed.

(** The cases of [load_model_source], once the run is computed. *)
Ltac load_cases :=
  split; [first [left; reflexivity | right; reflexivity]|];
  split; [eexists; reflexivity|];
  split; [|split; reflexivity];
  first [reflexivity
        | split; [reflexivity|];
          let Hk' := fresh in let Hpl := fresh in
          intros ? ? [= <-] Hk' Hpl;
          first [destruct Hpl; reflexivity | congruence]
        | split; [reflexivity|]; intros ? ? [=]].

(** C8.  Every run of [load_model] takes one source: the artifact path
    when that path and the marker file of the framework in it both exist
    (the fine-tuned model), the configured model name otherwise (the
    pretrained baseline).  The marker file is pytorch_model.bin for pt
    and tf_model.h5 for tf.  The run logs which of the two it loads and
    asks [from_pretrained] for the tokenizer of that source; if the
    tokenizer loads, it asks the model class of the framework for the
    model of that same source, and makes no other [from_pretrained]
    call; and when the model loads and the pipeline is built (and the
    attribute was not deleted before), the analyzer ends with the
    pipeline built from that model and that tokenizer. *)
Theorem load_model_source (w : world) (a : analyzer) :
  let fine :=
    path_exists w (model_path a)
    && path_exists w (path_join (model_path a) (model_file (framework a))) in
  let src := if fine then model_path a else model_name a in
  let cls := model_class_of (framework a) in
  let from_pt :=
    negb fine && str_eqb (framework a) (lit "tf")
    && path_exists w (path_join (model_path a) (lit "pytorch_model.bin")) in
  let out := load_model w (a, []) in
  let efs := snd (fst out) in
  (load_sources efs = [src] \/ load_sources efs = [src; src])
  /\ (exists rest,
        efs = Log (if fine then LoadingFineTuned else LoadingPreTrained)
              :: TokenizerFromPretrained src :: rest)
  /\ match tokenizer_from_pretrained w src with
     | inl _ => from_pretrained_calls efs = [TokenizerFromPretrained src]
     | inr tok =>
         from_pretrained_calls efs
         = [TokenizerFromPretrained src; ModelFromPretrained cls src from_pt]
         /\ forall m p,
              model_from_pretrained w cls src from_pt = inr m ->
              make_pipeline w m tok (framework a) = inr p ->
              pipeline a <> Unset ->
              out = ((Build_analyzer (model_name a) (framework a)
                                     (model_path a) (Obj p), efs),
                     inr tt)
     end
  /\ model_file (lit "pt") = lit "pytorch_model.bin"
  /\ model_file (lit "tf") = lit "tf_model.h5".
Proof.
  cbv zeta. fold (fine_tuned_present w a).
  assert (Hfiles : model_file (lit "pt") = lit "pytorch_model.bin"
                   /\ model_file (lit "tf") = lit "tf_model.h5")
    by (split; reflexivity).
  unfold load_model, load_body, try_except, bind, self, emit, call, ret,
    raise, get_pipeline, del_pipeline, write_pipeline.
  destruct (fine_tuned_present w a); destruct a as [nm fw path pl];
    cbn [negb andb model_name framework model_path pipeline];
    destruct (tokenizer_from_pretrained w _) as [e|tok]; simpl.
  - destruct pl; simpl; load_cases.
  - destruct (model_from_pretrained w _ path false) as [e|m] eqn:Hm; simpl.
    + destruct pl; simpl; load_cases.
    + destruct pl; simpl; try destruct (make_pipeline w m tok fw) eqn:Hk;
        simpl; load_cases.
  - destruct pl; simpl; load_cases.
  - destruct (model_from_pretrained w _ nm _) as [e|m] eqn:Hm; simpl.
    + destruct pl; simpl; load_cases.
    + destruct pl; simpl; try destruct (make_pipeline w m tok fw) eqn:Hk;
        simpl; load_cases.
Qed.

(** C10.  The label [_predict_batch] returns for a raw element is
    positive exactly when the raw label in upper case is POSITIVE, and
    negative for every other raw label; so it is one of these two.  The
    score is the raw score passed through [float].  What
    [_predict_batch] returns is made of these elements, in order. *)
Theorem convert_label_and_score (res : raw_result) :
  (label (convert res) = lit "positive"
   <-> upper (raw_label res) = lit "POSITIVE")
  /\ (label (convert res) = lit "negative"
      <-> upper (raw_label res) <> lit "POSITIVE")
  /\ (label (convert res) = lit "positive"
      \/ label (convert res) = lit "negative")
  /\ score (convert res) = float (raw_score res)
  /\ (forall (w : world) (a : analyzer) efs texts s' rs,
        predict_batch w texts (a, efs) = (s', inr rs) ->
        exists p raws,
          pipeline a = Obj p /\ call_pipeline w p texts = inr raws
          /\ rs = map convert raws).
Proof.
  unfold convert. simpl.
  destruct (str_eqb (upper (raw_label res)) (lit "POSITIVE")) eqn:H.
  - apply str_eqb_eq in H.
    repeat split; auto; try discriminate; try congruence.
    intros w a efs texts s' rs Hr.
    destruct (predict_batch_returns _ _ _ _ _ _ Hr)
      as (p & raws & ? & ? & ? & ?).
    eauto.
  - assert (Hne : upper (raw_label res) <> lit "POSITIVE").
    { intros E. apply str_eqb_eq in E. congruence. }
    repeat split; auto; try discriminate; try congruence.
    intros w a efs texts s' rs Hr.
    destruct (predict_batch_returns _ _ _ _ _ _ Hr)
      as (p & raws & ? & ? & ? & ?).
    eauto.
Qed.

End Facts.

Example convert_neutral (x : pyfloat) :
  convert (RawResult (lit "NEUTRAL") x) = Prediction (lit "negative") x.
Proof. reflexivity. Qed.

Example convert_mixed_case (x : pyfloat) :
  convert (RawResult (lit "Positive") x) = Prediction (lit "positive") x.
Proof. reflexivity. Qed.

Example convert_label_1 (x : pyfloat) :
  convert (RawResult (lit "LABEL_1") x) = Prediction (lit "negative") x.
Proof. reflexivity. Qed.

(** C1.  On the analyzer [serving], the reload [pipeline_fails] does not
    keep pipeline 0 and does not return: the attribute has been removed by
    line 115 before line 117 raised, the test of line 122 raises
    [AttributeError], and that exception leaves [load_model].  Afterwards
    [_predict_batch] raises [AttributeError] too, and so does every later
    reload, even one whose calls all succeed. *)
Theorem reload_failure_building_pipeline :
  let name := lit "distilbert-base-uncased-finetuned-sst-2-english" in
  let broken := Build_analyzer name (lit "pt") (lit "./model") Unset in
  load_model pipeline_fails (serving, [])
  = ((broken,
      [Log LoadingPreTrained; TokenizerFromPretrained name;
       ModelFromPretrained AutoModelForSequenceClassification name false;
       DelPipeline; MakePipeline (lit "pt");
       Log (ErrorLoading (OtherError 1))]),
     inl (AttributeError (lit "pipeline")))
  /\ snd (predict_batch pipeline_fails [lit "ok"] (broken, []))
     = inl (AttributeError (lit "pipeline"))
  /\ fst (fst (load_model pipeline_works (broken, []))) = broken
  /\ snd (load_model pipeline_works (broken, []))
     = inl (AttributeError (lit "pipeline")).
Proof. vm_compute. repeat split; reflexivity. Qed.

End AnalyzerFacts.

(** ** The watcher *)

Module WatcherFacts.

Import Watcher.

Lemma gt_spec (a b : Q) : gt a b = true <-> (b < a)%Q.
Proof.
  unfold gt. rewrite negb_true_iff. split.
  - intros H. apply Qnot_le_lt. intros Hle.
    apply Qle_bool_iff in Hle. congruence.
  - intros H. destruct (Qle_bool a b) eqn:E; [|reflexivity].
    apply Qle_bool_iff in E. apply Qle_not_lt in E. contradiction.
Qed.

(** The test of line 28: the path contains one of the five names. *)
Lemma names_model_file (path : str) :
  existsb (fun mf => contains path mf) model_files = true
  <-> exists mf pre post, In mf model_files /\ path = pre ++ mf ++ post.
Proof.
  rewrite existsb_exists. split.
  - intros (mf & Hin & Hc). apply PyFacts.contains_spec in Hc.
    destruct Hc as (pre & post & ->). eauto.
  - intros (mf & pre & post & Hin & ->). exists mf. split; [exact Hin|].
    apply PyFacts.contains_spec. eauto.
Qed.

(** What [on_modified] does, by cases. *)
Lemma on_modified_cases (h : handler) (now : Q) (ev : fs_event) :
  let qualifies :=
    negb (is_directory ev)
    && existsb (fun mf => contains (src_path ev) mf) model_files
    && gt (now - last_reload_time h) (reload_cooldown h) in
  on_modified h now ev
  = if qualifies
    then (Handler now (reload_cooldown h),
          [LogTrigger (src_path ev); Sleep (1 # 2); LoadModel])
    else (h, []).
Proof.
  unfold on_modified. cbv zeta.
  destruct (is_directory ev); [reflexivity|]. cbn [negb andb].
  destruct (existsb (fun mf => contains (src_path ev) mf) model_files);
    [|reflexivity].
  cbn [andb].
  destruct (gt (now - last_reload_time h) (reload_cooldown h)); reflexivity.
Qed.

(** C9.  An event makes the handler call [load_model] exactly when it
    is a created or modified event, not of a directory, whose path
    contains one of the five model file names, and more than the
    cooldown has passed since the last reload the handler triggered.
    The handler then records the time, sleeps for half a second and only
    then calls [load_model]; on any other event it does nothing and its
    record of the last reload is unchanged. *)
Theorem reload_only_for_model_files (h : handler) (now : Q) (ev : fs_event) :
  let h' := fst (dispatch h now ev) in
  let efs := snd (dispatch h now ev) in
  (In LoadModel efs <->
     (kind ev = Created \/ kind ev = Modified)
     /\ is_directory ev = false
     /\ (exists mf pre post,
           In mf model_files /\ src_path ev = pre ++ mf ++ post)
     /\ (reload_cooldown h < now - last_reload_time h)%Q)
  /\ (In LoadModel efs ->
        efs = [LogTrigger (src_path ev); Sleep (1 # 2); LoadModel]
        /\ h' = Handler now (reload_cooldown h))
  /\ (~ In LoadModel efs -> efs = [] /\ h' = h).
Proof.
  cbv zeta.
  assert (Hcases :
    dispatch h now ev
    = if match kind ev with Created | Modified => true | _ => false end
         && (negb (is_directory ev)
             && existsb (fun mf => contains (src_path ev) mf) model_files
             && gt (now - last_reload_time h) (reload_cooldown h))
      then (Handler now (reload_cooldown h),
            [LogTrigger (src_path ev); Sleep (1 # 2); LoadModel])
      else (h, [])).
  { unfold dispatch, on_created.
    destruct (kind ev); cbn [andb]; try reflexivity; apply on_modified_cases. }
  rewrite Hcases. clear Hcases.
  destruct (_ && _) eqn:Hq; simpl.
  - apply andb_true_iff in Hq. destruct Hq as [Hk Hq].
    apply andb_true_iff in Hq. destruct Hq as [Hq Hgt].
    apply andb_true_iff in Hq. destruct Hq as [Hd Hn].
    apply negb_true_iff in Hd. apply gt_spec in Hgt.
    apply names_model_file in Hn.
    split; [|split].
    + split; [intros _|auto].
      split; [destruct (kind ev); try discriminate; auto|]. auto.
    + auto.
    + intros H. exfalso. apply H. auto.
  - split; [|split].
    + split; [intros []|].
      intros (Hk & Hd & Hn & Hgt). exfalso.
      apply names_model_file in Hn. apply gt_spec in Hgt.
      rewrite Hd, Hn, Hgt in Hq.
      destruct Hk as [Hk | Hk]; rewrite Hk in Hq; discriminate.
    + intros [].
    + auto.
Qed.

Example weights_written :
  snd (dispatch new_handler 1000
         (FsEvent Modified false (lit "./model/pytorch_model.bin")))
  = [LogTrigger (lit "./model/pytorch_model.bin"); Sleep (1 # 2); LoadModel].
Proof. reflexivity. Qed.

Example burst_is_collapsed :
  snd (dispatch (Handler 1000 2) (1001 # 1)
         (FsEvent Created false (lit "./model/config.json")))
  = [].
Proof. reflexivity. Qed.

Example deletion_is_ignored :
  snd (dispatch new_handler 1000
         (FsEvent Deleted false (lit "./model/pytorch_model.bin")))
  = [].
Proof. reflexivity. Qed.

Example other_file_is_ignored :
  snd (dispatch new_handler 1000
         (FsEvent Modified false (lit "./model/vocab.txt")))
  = [].
Proof. reflexivity. Qed.

End WatcherFacts.

(** ** The lock *)

Module LockingFacts.

Import Locking.

Lemma pcs_move_same (s : sys) (t : nat) (p : pc) (l : bool) :
  pcs (move s t p l) t = p.
Proof. simpl. rewrite Nat.eqb_refl. reflexivity. Qed.

Lemma pcs_move_other (s : sys) (t u : nat) (p : pc) (l : bool) :
  u <> t -> pcs (move s t p l) u = pcs s u.
Proof. intros H. simpl. apply Nat.eqb_neq in H. rewrite H. reflexivity. Qed.

(** A thread outside the lock moves to another place outside it. *)
Lemma lock_inv_outside (s : sys) (t : nat) (p : pc) :
  lock_inv s -> inside (pcs s t) = false -> inside p = false ->
  lock_inv (move s t p (locked s)).
Proof.
  intros [Hfree Hheld Hone] Hold Hnew. split.
  - intros Hl u. destruct (Nat.eq_dec u t) as [->|Hne].
    + rewrite pcs_move_same. exact Hnew.
    + rewrite pcs_move_other by exact Hne. apply Hfree, Hl.
  - intros Hl. destruct (Hheld Hl) as [u Hu]. exists u.
    rewrite pcs_move_other; [exact Hu|].
    intros ->. congruence.
  - intros u v Hu Hv.
    destruct (Nat.eq_dec u t) as [->|Hut].
    { rewrite pcs_move_same in Hu. congruence. }
    destruct (Nat.eq_dec v t) as [->|Hvt].
    { rewrite pcs_move_same in Hv. congruence. }
    rewrite pcs_move_other in Hu, Hv by assumption. auto.
Qed.

(** A thread takes the free lock. *)
Lemma lock_inv_acquire (s : sys) (t : nat) (p : pc) :
  lock_inv s -> locked s = false -> inside p = true ->
  lock_inv (move s t p true).
Proof.
  intros [Hfree Hheld Hone] Hl Hp. split.
  - discriminate.
  - intros _. exists t. rewrite pcs_move_same. exact Hp.
  - intros u v Hu Hv.
    destruct (Nat.eq_dec u t) as [->|Hut];
      destruct (Nat.eq_dec v t) as [->|Hvt]; try reflexivity.
    + rewrite pcs_move_other in Hv by assumption.
      rewrite (Hfree Hl v) in Hv. discriminate.
    + rewrite pcs_move_other in Hu by assumption.
      rewrite (Hfree Hl u) in Hu. discriminate.
    + rewrite pcs_move_other in Hu by assumption.
      rewrite (Hfree Hl u) in Hu. discriminate.
Qed.

(** The thread inside gives the lock back. *)
Lemma lock_inv_release (s : sys) (t : nat) :
  lock_inv s -> inside (pcs s t) = true -> lock_inv (move s t Idle false).
Proof.
  intros [Hfree Hheld Hone] Ht.
  assert (Hnone : forall u, inside (pcs (move s t Idle false) u) = false).
  { intros u. destruct (Nat.eq_dec u t) as [->|Hne].
    - rewrite pcs_move_same. reflexivity.
    - rewrite pcs_move_other by exact Hne.
      destruct (inside (pcs s u)) eqn:Hu; [|reflexivity].
      exfalso. apply Hne. apply Hone; assumption. }
  split.
  - intros _. exact Hnone.
  - discriminate.
  - intros u v Hu. rewrite Hnone in Hu. discriminate.
Qed.

Lemma lock_inv_init : lock_inv init.
Proof.
  split; simpl.
  - reflexivity.
  - discriminate.
  - discriminate.
Qed.

Lemma lock_inv_step (s : sys) (tc : nat * choice) :
  lock_inv s -> lock_inv (step s tc).
Proof.
  intros Hs. destruct tc as [t c]. unfold step.
  destruct (pcs s t) eqn:Hp.
  - destruct c; try exact Hs;
      apply lock_inv_outside; try exact Hs; rewrite ?Hp; reflexivity.
  - destruct (locked s) eqn:Hl; [exact Hs|].
    destruct c; apply lock_inv_acquire; auto.
  - destruct c; apply lock_inv_release; try exact Hs; rewrite Hp; reflexivity.
  - destruct c as [| |[|]];
      apply lock_inv_outside; try exact Hs; rewrite ?Hp; reflexivity.
  - destruct (locked s) eqn:Hl; [exact Hs|].
    destruct c; apply lock_inv_acquire; auto.
  - destruct c; apply lock_inv_release; try exact Hs; rewrite Hp; reflexivity.
Qed.

Lemma lock_inv_run (sched : list (nat * choice)) (s : sys) :
  lock_inv s -> lock_inv (run s sched).
Proof.
  revert s. induction sched as [|tc sched IH]; intros s Hs; simpl.
  - exact Hs.
  - apply IH, lock_inv_step, Hs.
Qed.

(** A thread that waits for the lock while it is held stays where it
    is. *)
Lemma blocked_while_held (s : sys) (u : nat) (c : choice) :
  locked s = true ->
  pcs s u = LoadAcquiring \/ pcs s u = PredictAcquiring ->
  step s (u, c) = s.
Proof.
  intros Hl [Hu | Hu]; unfold step; rewrite Hu, Hl; destruct c; reflexivity.
Qed.

(** C2.  However the threads that call [load_model] and
    [_predict_batch] are interleaved, at most one of them is inside a
    [with self.load_lock] block.  While a thread is inside the block of
    [load_model], no thread is inside the block of [_predict_batch], and
    a thread that has reached line 129 stays there whenever it is
    scheduled; the same holds with the two methods exchanged.  The lock
    is held exactly when some thread is inside. *)
Theorem load_lock_excludes (sched : list (nat * choice)) (t u : nat) :
  let s := run init sched in
  (pcs s t = LoadInside ->
     pcs s u <> PredictInside
     /\ (forall c, pcs s u = PredictAcquiring ->
                   pcs (step s (u, c)) u = PredictAcquiring))
  /\ (pcs s t = PredictInside ->
        pcs s u <> LoadInside
        /\ (forall c, pcs s u = LoadAcquiring ->
                      pcs (step s (u, c)) u = LoadAcquiring))
  /\ (inside (pcs s t) = true -> inside (pcs s u) = true -> t = u)
  /\ (locked s = true <-> exists v, inside (pcs s v) = true).
Proof.
  cbv zeta.
  pose proof (lock_inv_run sched init lock_inv_init) as [Hfree Hheld Hone].
  set (s := run init sched) in *.
  assert (Hlocked : forall v, inside (pcs s v) = true -> locked s = true).
  { intros v Hv. destruct (locked s) eqn:Hl; [reflexivity|].
    rewrite (Hfree eq_refl v) in Hv. discriminate. }
  split; [|split; [|split]].
  - intros Ht. split.
    + intros Hu.
      assert (t = u) by (apply Hone; [rewrite Ht | rewrite Hu]; reflexivity).
      subst u. congruence.
    + intros c Hu. rewrite blocked_while_held; auto.
      apply (Hlocked t). rewrite Ht. reflexivity.
  - intros Ht. split.
    + intros Hu.
      assert (t = u) by (apply Hone; [rewrite Ht | rewrite Hu]; reflexivity).
      subst u. congruence.
    + intros c Hu. rewrite blocked_while_held; auto.
      apply (Hlocked t). rewrite Ht. reflexivity.
  - apply Hone.
  - split; [apply Hheld|]. intros [v Hv]. apply (Hlocked v Hv).
Qed.

(** Thread 0 reloads while thread 1 wants to predict: thread 1 waits at
    line 129 until thread 0 has left [load_model]. *)
Example reload_delays_batch :
  let sched := [(0%nat, CallLoadModel); (1%nat, CallPredictBatch);
                (0%nat, Go true); (1%nat, Go true); (1%nat, Go true);
                (1%nat, Go true)] in
  pcs (run init sched) 0%nat = LoadInside
  /\ pcs (run init sched) 1%nat = PredictAcquiring
  /\ pcs (run init (sched ++ [(0%nat, Go true); (1%nat, Go true)])) 1%nat
     = PredictInside.
Proof. repeat split. Qed.

End LockingFacts.

(** ** The batcher *)

Module BatcherFacts.

Import Batcher Service.

Section Futures.

Context {R : Type}.
Implicit Types (h : list (fstate R)) (tr l : trace R) (f g : fid).

Lemma fill_length l h : length (fill l h) = length h.
Proof.
  revert h. induction l as [|[f v] l IH]; intros h; [reflexivity|].
  change (length (fill l (<[f := landed v]> h)) = length h).
  rewrite IH. apply length_insert.
Qed.

Lemma fill_other l h g : ~ In g (map fst l) -> fill l h !! g = h !! g.
Proof.
  revert h. induction l as [|[f v] l IH]; intros h Hg; [reflexivity|].
  change (fill l (<[f := landed v]> h) !! g = h !! g).
  simpl in Hg. rewrite IH by tauto.
  apply list_lookup_insert_ne. tauto.
Qed.

Lemma fill_set l h f v :
  NoDup (map fst l) -> In (f, v) l -> (f < length h)%nat ->
  fill l h !! f = Some (landed v).
Proof.
  revert h. induction l as [|[g w] l IH]; intros h Hnd Hin Hlt.
  - destruct Hin.
  - change (fill l (<[g := landed w]> h) !! f = Some (landed v)).
    simpl in Hnd. apply NoDup_cons in Hnd. destruct Hnd as [Hg Hnd].
    destruct Hin as [[= -> ->] | Hin].
    + change (fill l (<[f := landed v]> h) !! f = Some (landed v)).
      rewrite fill_other.
      * apply list_lookup_insert_eq, Hlt.
      * intros Hin. apply Hg. apply list_elem_of_In. exact Hin.
    + apply IH; [exact Hnd | exact Hin | rewrite length_insert; exact Hlt].
Qed.

(** On distinct pending futures every [set_result] succeeds. *)
Lemma set_results_fill (pairs : list (fid * R)) h tr :
  NoDup (map fst pairs) ->
  (forall f, In f (map fst pairs) -> h !! f = Some Pending) ->
  let l := map (fun fr => (fst fr, inr (snd fr))) pairs in
  set_results pairs h tr = (fill l h, tr ++ l, None).
Proof.
  revert h tr. induction pairs as [|[f r] pairs IH]; intros h tr Hnd Hp; simpl.
  - rewrite app_nil_r. reflexivity.
  - simpl in Hnd. apply NoDup_cons in Hnd. destruct Hnd as [Hf Hnd].
    unfold set_result, set_future. rewrite (Hp f) by (simpl; auto).
    simpl in IH. rewrite IH.
    + rewrite <- app_assoc. reflexivity.
    + exact Hnd.
    + intros g Hg. rewrite list_lookup_insert_ne.
      * apply Hp. simpl. auto.
      * intros ->. apply Hf. apply list_elem_of_In. exact Hg.
Qed.

(** Likewise for [set_exception], with an exception a future takes. *)
Lemma set_exceptions_fill (futs : list fid) (e : exn) h tr :
  refused e = false ->
  NoDup futs ->
  (forall f, In f futs -> h !! f = Some Pending) ->
  let l := map (fun f => (f, inl e)) futs in
  set_exceptions futs e h tr = (fill l h, tr ++ l, None).
Proof.
  intros He.
  revert h tr. induction futs as [|f futs IH]; intros h tr Hnd Hp; simpl.
  - rewrite app_nil_r. reflexivity.
  - apply NoDup_cons in Hnd. destruct Hnd as [Hf Hnd].
    unfold set_exception. rewrite (Hp f) by (simpl; auto). rewrite He.
    assert (Hl : @landed R (inl e) = Finished (inl e))
      by (unfold landed; rewrite He; reflexivity).
    simpl in IH. rewrite IH.
    + rewrite <- Hl, <- app_assoc. reflexivity.
    + exact Hnd.
    + intros g Hg. rewrite list_lookup_insert_ne.
      * apply Hp. simpl. auto.
      * intros ->. apply Hf. apply list_elem_of_In. exact Hg.
Qed.

(** With a [StopIteration] the first [set_exception] raises: no future
    changes. *)
Lemma set_exceptions_refused (futs : list fid) (e : exn) h tr :
  refused e = true ->
  (forall f, In f futs -> h !! f = Some Pending) ->
  let l := map (fun f => (f, inl e)) (take 1 futs) in
  set_exceptions futs e h tr
  = (fill l h, tr ++ l,
     match futs with
     | [] => None
     | _ :: _ => Some stop_iteration_refused
     end).
Proof.
  intros He Hp. destruct futs as [|f futs]; simpl.
  - rewrite app_nil_r. reflexivity.
  - unfold set_exception. rewrite (Hp f) by (simpl; auto). rewrite He.
    rewrite list_insert_id by (apply Hp; simpl; auto). reflexivity.
Qed.

(** [zip] keeps a prefix of its first list. *)
Lemma zip_fst_in (futs : list fid) (rs : list R) f r :
  In (f, r) (zip futs rs) -> In f futs.
Proof.
  revert rs. induction futs as [|g futs IH]; intros [|s rs]; simpl; try tauto.
  intros [[= -> ->] | H]; eauto.
Qed.

Lemma zip_fst_NoDup (futs : list fid) (rs : list R) :
  NoDup futs -> NoDup (map fst (zip futs rs)).
Proof.
  revert rs. induction futs as [|g futs IH]; intros [|s rs] Hnd; simpl;
    try constructor.
  - apply NoDup_cons in Hnd. destruct Hnd as [Hg Hnd].
    intros Hin. apply Hg. apply list_elem_of_In.
    apply list_elem_of_In, in_map_iff in Hin.
    destruct Hin as ([g' r'] & Heq & Hin). simpl in Heq. subst g'.
    apply zip_fst_in in Hin. exact Hin.
  - apply NoDup_cons in Hnd. apply IH, Hnd.
Qed.

Lemma zip_fst_full (futs : list fid) (rs : list R) :
  (length futs <= length rs)%nat -> map fst (zip futs rs) = futs.
Proof.
  revert rs. induction futs as [|g futs IH]; intros [|s rs] Hle; simpl in *;
    try reflexivity; try lia.
  f_equal. apply IH. lia.
Qed.

Lemma zip_lookup_in (b : list request) (rs : list R) i t f r :
  b !! i = Some (t, f) -> rs !! i = Some r -> In (f, r) (zip (map snd b) rs).
Proof.
  revert i rs. induction b as [|[t' f'] b IH]; intros [|i] [|s rs];
    simpl; try discriminate.
  - intros [= -> ->] [= ->]. auto.
  - intros Hb Hr. right. eapply IH; eassumption.
Qed.

End Futures.

Section Worker.

Context {R : Type}.
Variable predict_func : nat -> list str -> exn + list R.
Variable batch_size : Z.

Local Abbreviation expected := (expected predict_func).
Local Abbreviation process_batch := (process_batch predict_func).
Local Abbreviation worker_get := (worker_get predict_func batch_size).
Local Abbreviation step := (step predict_func batch_size).
Local Abbreviation run := (run predict_func batch_size).
Local Abbreviation plan := (plan predict_func).
Local Abbreviation good := (good predict_func).
Local Abbreviation batcher_inv := (batcher_inv predict_func batch_size).
Local Abbreviation returns_enough := (returns_enough predict_func).
Local Abbreviation never_stops := (never_stops predict_func).
Local Abbreviation stops := (stops predict_func).
Local Abbreviation ended := (ended predict_func).
Local Abbreviation width := (width batch_size).
Local Abbreviation full_log := (full_log batch_size).
Local Abbreviation shaped := (shaped batch_size).
Local Abbreviation potential := (potential batch_size).
Local Abbreviation no_timeout := (no_timeout predict_func batch_size).

Implicit Types (st : state R) (b its q pend reqs : list request)
  (lg : list (list request)) (h : list (fstate R)) (tr : trace R).

(** *** The calls of a batch *)

Lemma take_1_in (l : list fid) f : In f (take 1 l) -> In f l.
Proof.
  destruct l as [|g l]; simpl; [intros []|]. intros [<- | []].
  left. reflexivity.
Qed.

Lemma take_1_NoDup (l : list fid) : NoDup l -> NoDup (take 1 l).
Proof.
  destruct l as [|g l]; simpl; intros H; [exact H|].
  apply NoDup_singleton.
Qed.

Lemma refused_false (e : exn) : e <> StopIteration -> refused e = false.
Proof. destruct e; try reflexivity. intros H. destruct H. reflexivity. Qed.

Lemma expected_fids k b x : In x (expected k b) -> In (fst x) (map snd b).
Proof.
  unfold Batcher.expected.
  destruct (predict_func k (map fst b)) as [e|rs]; intros H;
    apply in_map_iff in H.
  - destruct H as (f & <- & H). simpl.
    destruct (refused e); [apply take_1_in|]; exact H.
  - destruct H as ([f r] & <- & H). simpl. eapply zip_fst_in, H.
Qed.

Lemma expected_NoDup k b :
  NoDup (map snd b) -> NoDup (map fst (expected k b)).
Proof.
  intros Hnd. unfold Batcher.expected.
  destruct (predict_func k (map fst b)) as [e|rs]; rewrite map_map; simpl.
  - rewrite map_id. destruct (refused e); [apply take_1_NoDup|]; exact Hnd.
  - apply (zip_fst_NoDup _ rs) in Hnd. exact Hnd.
Qed.

Lemma plan_snoc lg b : plan (lg ++ [b]) = plan lg ++ expected (length lg) b.
Proof.
  unfold Batcher.plan. rewrite imap_app, concat_app. simpl.
  rewrite Nat.add_0_r, app_nil_r. reflexivity.
Qed.

Lemma plan_lookup lg k b x :
  lg !! k = Some b -> In x (expected k b) -> In x (plan lg).
Proof.
  intros Hk Hx. unfold Batcher.plan. apply in_concat.
  exists (expected k b). split; [|exact Hx].
  apply list_elem_of_In. apply (list_elem_of_lookup_2 _ k).
  rewrite list_lookup_imap, Hk. reflexivity.
Qed.

Lemma plan_in lg x :
  In x (plan lg) -> exists k b, lg !! k = Some b /\ In x (expected k b).
Proof.
  unfold Batcher.plan. intros H. apply in_concat in H.
  destruct H as (l & Hl & Hx).
  apply list_elem_of_In, list_elem_of_lookup_1 in Hl. destruct Hl as [k Hk].
  rewrite list_lookup_imap in Hk.
  destruct (lg !! k) as [b|] eqn:Hb; simpl in Hk; [|discriminate].
  injection Hk as <-. eauto.
Qed.

Lemma plan_fids lg x : In x (plan lg) -> In (fst x) (map snd (concat lg)).
Proof.
  intros H. apply plan_in in H. destruct H as (k & b & Hk & Hx).
  apply expected_fids in Hx. apply in_map_iff in Hx.
  destruct Hx as (r & Hr & Hin). apply in_map_iff. exists r.
  split; [exact Hr|]. apply in_concat. exists b. split; [|exact Hin].
  apply list_elem_of_In. eapply list_elem_of_lookup_2, Hk.
Qed.

(** The futures of distinct requests are distinct. *)
Lemma good_NoDup reqs lg pend h tr :
  good reqs lg pend h tr ->
  NoDup (map snd (concat lg) ++ map snd pend).
Proof.
  intros [Hfifo Hids _ _ _].
  pose proof (NoDup_seq 0 (length h)) as H.
  rewrite <- Hids, <- Hfifo, map_app in H. exact H.
Qed.

Lemma good_dispatch reqs lg its q h tr :
  good reqs lg (its ++ q) h tr ->
  NoDup (map snd its)
  /\ (forall f, In f (map snd its) -> h !! f = Some Pending)
  /\ good reqs (lg ++ [its]) q
          (fill (expected (length lg) its) h)
          (tr ++ expected (length lg) its).
Proof.
  intros Hg. pose proof (good_NoDup _ _ _ _ _ Hg) as Hnd.
  destruct Hg as [Hfifo Hids Hcalls Hdone Hpend].
  rewrite map_app in Hnd.
  apply NoDup_app in Hnd. destruct Hnd as (_ & Hdisj & Hnd).
  apply NoDup_app in Hnd. destruct Hnd as (Hits & Hdisj' & _).
  assert (Hp : forall f, In f (map snd its) -> h !! f = Some Pending).
  { intros f Hf. apply Hpend. rewrite map_app. apply in_or_app. auto. }
  assert (Hsub : forall f, In f (map fst (expected (length lg) its)) ->
                            In f (map snd its)).
  { intros f Hf. apply in_map_iff in Hf. destruct Hf as (x & <- & Hx).
    eapply expected_fids, Hx. }
  split; [exact Hits|]. split; [exact Hp|]. split.
  - rewrite concat_app. simpl. rewrite app_nil_r, <- app_assoc. exact Hfifo.
  - rewrite fill_length. exact Hids.
  - rewrite plan_snoc, Hcalls. reflexivity.
  - intros f v Hin. apply in_app_or in Hin. destruct Hin as [Hin | Hin].
    + rewrite fill_other; [apply Hdone, Hin|].
      intros Hf. apply Hsub in Hf.
      rewrite Hcalls in Hin. apply plan_fids in Hin. simpl in Hin.
      apply (Hdisj f); apply list_elem_of_In; [exact Hin|].
      apply in_or_app. auto.
    + apply fill_set; [apply expected_NoDup, Hits | exact Hin |].
      apply (lookup_lt_Some _ _ Pending). apply Hp.
      apply (expected_fids _ _ _ Hin).
  - intros f Hf. rewrite fill_other.
    + apply Hpend. rewrite map_app. apply in_or_app. auto.
    + intros Hf'. apply Hsub in Hf'.
      apply (Hdisj' f); apply list_elem_of_In; assumption.
Qed.

(** On a batch of distinct pending futures [process_batch] makes exactly
    the calls of the batch; the worker goes on unless [predict_func]
    raised [StopIteration]. *)
Lemma process_batch_fill st its q :
  NoDup (map snd its) ->
  (forall f, In f (map snd its) -> futures st !! f = Some Pending) ->
  process_batch its q st
  = State q (fill (expected (length (log st)) its) (futures st)) None
          (log st ++ [its]) (calls st ++ expected (length (log st)) its)
          (ended (length (log st)) its).
Proof.
  intros Hnd Hp.
  unfold Batcher.process_batch, Batcher.expected, Batcher.ended,
    Batcher.stops.
  destruct (predict_func (length (log st)) (map fst its)) as [e|rs].
  - destruct (refused e) eqn:He.
    + rewrite set_exceptions_refused by assumption.
      destruct its; reflexivity.
    + rewrite set_exceptions_fill by assumption. destruct its; reflexivity.
  - rewrite set_results_fill.
    + destruct its; reflexivity.
    + apply zip_fst_NoDup, Hnd.
    + intros f Hf. apply Hp. apply in_map_iff in Hf.
      destruct Hf as ([f' r] & <- & Hf). eapply zip_fst_in, Hf.
Qed.

(** *** The invariant of the batcher *)

Lemma inv_init : batcher_inv [] init.
Proof.
  split; simpl; try discriminate; try tauto.
  split; simpl; try reflexivity; tauto.
Qed.

(** Unless [predict_func] raises [StopIteration], the worker is alive. *)
Lemma alive reqs st : never_stops -> batcher_inv reqs st -> dead st = None.
Proof.
  intros Hns Hinv. destruct (dead st) as [e|] eqn:Hd; [|reflexivity].
  destruct (inv_dead Hinv e Hd) as (_ & k & b & _ & Hs).
  unfold Batcher.stops in Hs.
  destruct (predict_func k (map fst b)) as [e'|rs] eqn:Hp; [|discriminate].
  destruct e'; try discriminate. destruct (Hns _ _ Hp).
Qed.

Lemma good_length reqs lg pend h tr :
  good reqs lg pend h tr -> length reqs = length h.
Proof.
  intros Hg. rewrite <- (length_map snd reqs), (good_ids Hg).
  apply length_seq.
Qed.

Lemma inv_submit reqs st text :
  batcher_inv reqs st ->
  batcher_inv (reqs ++ [(text, length (futures st))]) (snd (submit text st)).
Proof.
  intros [Hdead Hgood Hitems Hsizes].
  pose proof (good_length _ _ _ _ _ Hgood) as Hlen.
  destruct Hgood as [Hfifo Hids Hcalls Hdone Hpend].
  split; simpl; try assumption.
  unfold pending in *. simpl. split.
  - rewrite !app_assoc. rewrite <- (app_assoc (concat (log st))).
    rewrite Hfifo. reflexivity.
  - rewrite map_app, Hids, length_app. simpl.
    rewrite Nat.add_1_r, seq_S. reflexivity.
  - exact Hcalls.
  - intros f v Hin. rewrite lookup_app_l.
    + apply Hdone, Hin.
    + eapply lookup_lt_Some, Hdone, Hin.
  - intros f Hf. rewrite app_assoc, map_app in Hf.
    apply in_app_or in Hf. destruct Hf as [Hf | [<- | []]].
    + rewrite lookup_app_l; [apply Hpend, Hf|].
      eapply lookup_lt_Some, Hpend, Hf.
    + simpl. apply list_lookup_middle. reflexivity.
Qed.

(** The worker keeps an item and goes for the next one. *)
Lemma inv_collect reqs st its q :
  batcher_inv reqs st -> pending st = its ++ q ->
  (1 <= length its)%nat -> Z.of_nat (length its) < batch_size ->
  batcher_inv reqs
    (State q (futures st) (Some its) (log st) (calls st) None).
Proof.
  intros [Hdead Hgood Hitems Hsizes] Hpend Hone Hlt.
  split; simpl; try assumption.
  - discriminate.
  - unfold pending. simpl. rewrite <- Hpend. exact Hgood.
  - intros its' [= <-]. auto.
Qed.

(** The worker hands the batch [its] over. *)
Lemma inv_process_batch reqs st its q :
  batcher_inv reqs st -> pending st = its ++ q ->
  (1 <= length its)%nat ->
  (1 <= batch_size -> Z.of_nat (length its) <= batch_size) ->
  batcher_inv reqs (process_batch its q st).
Proof.
  intros [Hdead Hgood Hitems Hsizes] Hpend Hone Hle.
  rewrite Hpend in Hgood.
  destruct (good_dispatch _ _ _ _ _ _ Hgood) as (Hnd & Hp & Hgood').
  rewrite process_batch_fill by assumption.
  split; simpl.
  - unfold Batcher.ended. destruct its as [|x its]; [discriminate|].
    destruct (stops (length (log st)) (x :: its)) eqn:Hs; [|discriminate].
    intros e [= <-]. split; [reflexivity|].
    exists (length (log st)), (x :: its). split; [|exact Hs].
    apply list_lookup_middle. reflexivity.
  - exact Hgood'.
  - discriminate.
  - intros b Hb. apply in_app_or in Hb. destruct Hb as [Hb | [<- | []]]; auto.
Qed.

Lemma inv_worker_get reqs st :
  batcher_inv reqs st -> batcher_inv reqs (worker_get st).
Proof.
  intros Hinv. pose proof Hinv as [Hdead Hgood Hitems Hsizes].
  unfold Batcher.worker_get.
  destruct (dead st) as [e|] eqn:Hd; [exact Hinv|].
  destruct (queue st) as [|x q] eqn:Hq; destruct (items st) as [its|] eqn:Hi.
  - destruct (Hitems its eq_refl) as [Hone Hlt].
    apply inv_process_batch; auto; [|lia].
    unfold pending. rewrite Hi, Hq. reflexivity.
  - exact Hinv.
  - destruct (Hitems its eq_refl) as [Hone Hlt].
    assert (Hpend : pending st = (its ++ [x]) ++ q).
    { unfold pending. rewrite Hi, Hq, <- app_assoc. reflexivity. }
    assert (Hlen : length (its ++ [x]) = S (length its)).
    { rewrite length_app. simpl. lia. }
    destruct (Z.ltb_spec (Z.of_nat (length (its ++ [x]))) batch_size).
    + apply inv_collect; auto. lia.
    + apply inv_process_batch; auto; lia.
  - assert (Hpend : pending st = [x] ++ q).
    { unfold pending. rewrite Hi, Hq. reflexivity. }
    destruct (Z.ltb_spec (Z.of_nat (length [x])) batch_size).
    + apply inv_collect; auto.
    + apply inv_process_batch; auto; simpl; lia.
Qed.

Lemma requests_from_snoc n sched ev :
  requests_from n (sched ++ [ev])
  = requests_from n sched
    ++ match ev with
       | Submit text => [(text, (n + length (requests_from n sched))%nat)]
       | WorkerGet => []
       end.
Proof.
  revert n. induction sched as [|[text|] sched IH]; intros n; simpl.
  - destruct ev; simpl; [rewrite Nat.add_0_r|]; reflexivity.
  - rewrite IH. destruct ev; simpl; [|reflexivity].
    repeat f_equal. lia.
  - apply IH.
Qed.

Lemma run_snoc st sched ev : run st (sched ++ [ev]) = step (run st sched) ev.
Proof. unfold Batcher.run. rewrite fold_left_app. reflexivity. Qed.

Lemma run_app st s1 s2 : run st (s1 ++ s2) = run (run st s1) s2.
Proof. unfold Batcher.run. apply fold_left_app. Qed.

(** The invariant holds whatever the callers and the worker do. *)
Lemma inv_run sched : batcher_inv (requests sched) (run init sched).
Proof.
  induction sched as [|ev sched IH] using rev_ind.
  - apply inv_init.
  - rewrite run_snoc. unfold requests. rewrite requests_from_snoc.
    destruct ev as [text|]; simpl.
    + pose proof (good_length _ _ _ _ _ (inv_good IH)) as Hlen.
      fold (requests sched). rewrite Hlen. apply inv_submit, IH.
    + rewrite app_nil_r. apply inv_worker_get, IH.
Qed.

(** *** Draining the queue *)

Lemma process_batch_shape its q st :
  queue (process_batch its q st) = q
  /\ items (process_batch its q st) = None
  /\ log (process_batch its q st) = log st ++ [its].
Proof.
  unfold Batcher.process_batch.
  destruct (predict_func (length (log st)) (map fst its)) as [e|rs].
  - destruct (set_exceptions _ e _ _) as [[h' tr'] [e'|]]; simpl; auto.
  - destruct (set_results _ _ _) as [[h' tr'] [e|]]; simpl; auto.
    destruct (set_exceptions _ e _ _) as [[h'' tr''] [e'|]]; simpl; auto.
Qed.

Lemma worker_get_idle st :
  queue st = [] -> items st = None -> worker_get st = st.
Proof.
  intros Hq Hi. unfold Batcher.worker_get. rewrite Hq, Hi.
  destruct (dead st); reflexivity.
Qed.

Lemma run_idle st m :
  queue st = [] -> items st = None -> run st (repeat WorkerGet m) = st.
Proof.
  intros Hq Hi. induction m as [|m IH]; simpl; [reflexivity|].
  rewrite worker_get_idle by assumption. exact IH.
Qed.

(** A [get] takes the oldest item off the queue; on an empty queue it
    leaves the worker with no item in hand. *)
Lemma worker_get_queue st :
  dead st = None ->
  queue (worker_get st) = tail (queue st)
  /\ (queue st = [] -> items (worker_get st) = None).
Proof.
  intros Halive. unfold Batcher.worker_get. rewrite Halive.
  destruct (queue st) as [|x q] eqn:Hq.
  - destruct (items st) as [its|] eqn:Hi.
    + destruct (process_batch_shape its [] st) as (-> & -> & _). auto.
    + rewrite Hq, Hi. auto.
  - split; [|discriminate].
    destruct (_ <? _); [reflexivity|].
    match goal with
    | |- queue (Batcher.process_batch _ ?i _ _) = _ =>
        destruct (process_batch_shape i q st) as (-> & _)
    end.
    reflexivity.
Qed.

(** Once the callers stop, as many [get]s as there are queued items, and
    one more, leave nothing queued and nothing in the worker's hand, if
    the worker stays alive. *)
Lemma drain reqs m : forall st,
  never_stops ->
  batcher_inv reqs st -> (length (queue st) < m)%nat ->
  queue (run st (repeat WorkerGet m)) = []
  /\ items (run st (repeat WorkerGet m)) = None
  /\ batcher_inv reqs (run st (repeat WorkerGet m)).
Proof.
  induction m as [|m IH]; intros st Hns Hinv Hlen; [lia|].
  simpl. pose proof (inv_worker_get _ _ Hinv) as Hinv'.
  destruct (worker_get_queue st (alive _ _ Hns Hinv)) as [Hq Hi].
  destruct (queue st) as [|x q] eqn:Hqs.
  - rewrite run_idle; auto.
  - apply IH; [exact Hns | exact Hinv' |]. rewrite Hq. simpl in *. lia.
Qed.

(** *** A burst: every batch but the last is full *)

Lemma burst_get reqs st :
  never_stops ->
  batcher_inv reqs st -> 1 <= batch_size -> full_log st ->
  queue st <> [] -> full_log (worker_get st).
Proof.
  intros Hns Hinv Hbs Hfull Hq.
  pose proof (alive _ _ Hns Hinv) as Halive.
  destruct Hinv as [_ _ Hitems _].
  unfold Batcher.worker_get. rewrite Halive.
  destruct (queue st) as [|x q]; [congruence|].
  set (its := match items st with Some its => its ++ [x] | None => [x] end).
  assert (Hlen : Z.of_nat (length its) <= batch_size).
  { subst its. destruct (items st) as [its|] eqn:Hi.
    - destruct (Hitems its eq_refl) as [_ Hlt].
      rewrite length_app. simpl. lia.
    - simpl. lia. }
  destruct (Z.ltb_spec (Z.of_nat (length its)) batch_size) as [Hlt | Hge].
  - exact Hfull.
  - intros b Hb.
    destruct (process_batch_shape its q st) as (_ & _ & Hlog).
    rewrite Hlog in Hb. apply in_app_or in Hb.
    destruct Hb as [Hb | [<- | []]]; [apply Hfull, Hb | lia].
Qed.

Lemma burst_flush reqs st :
  never_stops ->
  batcher_inv reqs st -> full_log st -> queue st = [] ->
  shaped (log (worker_get st)).
Proof.
  intros Hns Hinv Hfull Hq.
  pose proof (alive _ _ Hns Hinv) as Halive.
  destruct Hinv as [_ _ Hitems _].
  unfold Batcher.worker_get. rewrite Halive, Hq.
  destruct (items st) as [its|] eqn:Hi.
  - destruct (process_batch_shape its [] st) as (_ & _ & ->).
    destruct (Hitems its eq_refl) as [Hone Hlt].
    exists (log st), [its]. split; [reflexivity|]. split; [exact Hfull|].
    right. exists its. auto.
  - exists (log st), []. rewrite app_nil_r. auto.
Qed.

Lemma burst_drain reqs m : forall st,
  never_stops ->
  batcher_inv reqs st -> 1 <= batch_size -> full_log st ->
  (length (queue st) < m)%nat ->
  shaped (log (run st (repeat WorkerGet m))).
Proof.
  induction m as [|m IH]; intros st Hns Hinv Hbs Hfull Hlen; [lia|].
  simpl. pose proof (inv_worker_get _ _ Hinv) as Hinv'.
  destruct (worker_get_queue st (alive _ _ Hns Hinv)) as [Hq Hi].
  destruct (queue st) as [|x q] eqn:Hqs.
  - rewrite run_idle; auto.
    eapply burst_flush; eassumption.
  - apply IH; auto.
    + eapply burst_get; eauto. congruence.
    + rewrite Hq. simpl in *. lia.
Qed.

(** While no [get] times out, every batch handed over is full. *)
Lemma burst_run sched : forall reqs st,
  never_stops ->
  batcher_inv reqs st -> 1 <= batch_size -> full_log st ->
  no_timeout st sched = true ->
  full_log (run st sched) /\ exists reqs', batcher_inv reqs' (run st sched).
Proof.
  induction sched as [|ev sched IH]; intros reqs st Hns Hinv Hbs Hfull Hnt.
  - simpl. eauto.
  - simpl in Hnt. destruct ev as [text|].
    + apply (IH _ _ Hns (inv_submit _ _ text Hinv) Hbs); [exact Hfull|].
      destruct (queue st); exact Hnt.
    + destruct (queue st) as [|x q] eqn:Hq; [discriminate|].
      apply (IH _ _ Hns (inv_worker_get _ _ Hinv) Hbs); [|exact Hnt].
      eapply burst_get; eauto. congruence.
Qed.

Lemma full_concat_length (full : list (list request)) :
  (forall b, In b full -> Z.of_nat (length b) = batch_size) ->
  Z.of_nat (length (concat full)) = batch_size * Z.of_nat (length full).
Proof.
  induction full as [|b full IH]; intros H; simpl; [lia|].
  rewrite length_app, Nat2Z.inj_add.
  rewrite IH by (intros; apply H; simpl; auto).
  rewrite (H b) by (simpl; auto). lia.
Qed.

(** The number of batches of a burst of [n] requests is [n / batch_size]
    rounded up. *)
Lemma shaped_count lg :
  1 <= batch_size -> shaped lg ->
  Z.of_nat (length lg)
  = (Z.of_nat (length (concat lg)) + batch_size - 1) / batch_size.
Proof.
  intros Hbs (full & last & -> & Hfull & Hlast).
  rewrite concat_app, !length_app, !Nat2Z.inj_add.
  rewrite (full_concat_length _ Hfull).
  destruct Hlast as [-> | (b & -> & Hone & Hlt)]; simpl.
  - apply (Z.div_unique _ _ _ (batch_size - 1)); lia.
  - rewrite app_nil_r.
    apply (Z.div_unique _ _ _ (Z.of_nat (length b) - 1)); lia.
Qed.

(** *** Batches, order and results *)

(** C6.  With a batch size of at least one, every batch the worker hands
    to [predict_func] holds at least one request and at most
    [batch_size] of them; the list of texts passed is never empty. *)
Theorem batches_nonempty_and_bounded sched b :
  1 <= batch_size ->
  In b (log (run init sched)) ->
  map fst b <> []
  /\ (1 <= length b)%nat
  /\ Z.of_nat (length b) <= batch_size.
Proof.
  intros Hbs Hb.
  destruct (inv_sizes (inv_run sched) b Hb) as [Hone Hle].
  split; [|auto].
  destruct b; simpl in *; [lia | discriminate].
Qed.

(** C4.  If [predict_func] raised [e] on the [k]-th batch, and [e] is
    not a [StopIteration], the future of every request of that batch is
    finished with [e], by a [set_exception] call, and no call ever gave
    it anything else: none of them has a result. *)
Theorem batch_failure_reaches_every_request sched k b e t f :
  log (run init sched) !! k = Some b ->
  predict_func k (map fst b) = inl e ->
  e <> StopIteration ->
  In (t, f) b ->
  futures (run init sched) !! f = Some (Finished (inl e))
  /\ In (f, inl e) (calls (run init sched))
  /\ (forall v, In (f, v) (calls (run init sched)) -> v = inl e).
Proof.
  intros Hk He Hne Hin. pose proof (refused_false e Hne) as Hr.
  destruct (inv_good (inv_run sched)) as [_ _ Hcalls Hdone _].
  assert (Hc : In (f, inl e) (calls (run init sched))).
  { rewrite Hcalls. apply (plan_lookup _ k b); [exact Hk|].
    unfold Batcher.expected. rewrite He, Hr.
    apply (in_map (fun g => (g, inl e)) _ f).
    apply (in_map snd _ _ Hin). }
  pose proof (Hdone _ _ Hc) as Hf. unfold landed in Hf. rewrite Hr in Hf.
  split; [exact Hf|]. split; [exact Hc|].
  intros v Hv. apply Hdone in Hv. rewrite Hf in Hv. injection Hv as Hv.
  destruct v as [e'|r]; unfold landed in Hv; [destruct (refused e')|];
    congruence.
Qed.

(** C5.  With a batch size of at least one:
    - the batches handed to [predict_func], one after the other, followed
      by the requests not yet in a batch, are the submitted requests in
      the order of their submission; so each batch is a run of
      consecutive requests, of at most [batch_size];
    - when [n] requests arrive so close to each other that no [get] of
      the worker times out before the last of them is queued, and none
      arrives later, the worker makes [n / batch_size] calls, rounded up,
      over all of them in order, provided [predict_func] never raises
      [StopIteration];
    - when [predict_func] returns, the future of the request at position
      [i] of the batch holds the result at position [i]. *)
Theorem batches_are_fifo_slices :
  1 <= batch_size ->
  (forall sched,
     concat (log (run init sched)) ++ pending (run init sched)
     = requests sched
     /\ forall k b, log (run init sched) !! k = Some b ->
          Z.of_nat (length b) <= batch_size
          /\ exists rest,
               requests sched
               = concat (take k (log (run init sched))) ++ b ++ rest)
  /\ (never_stops ->
      forall sched m,
        no_timeout init sched = true ->
        (length (queue (run init sched)) < m)%nat ->
        let st := run init (sched ++ repeat WorkerGet m) in
        concat (log st) = requests sched
        /\ Z.of_nat (length (log st))
           = (Z.of_nat (length (requests sched)) + batch_size - 1)
             / batch_size
        /\ forall b, In b (log st) -> Z.of_nat (length b) <= batch_size)
  /\ (forall sched k b rs i t f r,
        log (run init sched) !! k = Some b ->
        predict_func k (map fst b) = inr rs ->
        b !! i = Some (t, f) -> rs !! i = Some r ->
        futures (run init sched) !! f = Some (Finished (inr r))).
Proof.
  intros Hbs. split; [|split].
  - intros sched. pose proof (inv_run sched) as Hinv.
    pose proof (good_fifo (inv_good Hinv)) as Hfifo.
    split; [exact Hfifo|]. intros k b Hk. split.
    + apply (inv_sizes Hinv b); [|exact Hbs].
      apply list_elem_of_In. eapply list_elem_of_lookup_2, Hk.
    + exists (concat (drop (S k) (log (run init sched)))
              ++ pending (run init sched)).
      rewrite <- Hfifo at 1.
      rewrite <- (take_drop_middle _ _ _ Hk) at 1.
      rewrite concat_app. simpl. rewrite <- !app_assoc. reflexivity.
  - intros Hns sched m Hnt Hm. cbv zeta. rewrite run_app.
    set (st0 := run init sched) in *.
    pose proof (inv_run sched) as Hinv0. fold st0 in Hinv0.
    assert (Hfull0 : full_log st0).
    { apply (burst_run sched [] init Hns inv_init Hbs); [|exact Hnt].
      intros b []. }
    destruct (drain _ m st0 Hns Hinv0 Hm) as (Hq & Hi & Hinv).
    pose proof (burst_drain _ m st0 Hns Hinv0 Hbs Hfull0 Hm) as Hshape.
    pose proof (good_fifo (inv_good Hinv)) as Hfifo.
    unfold pending in Hfifo. rewrite Hq, Hi in Hfifo. simpl in Hfifo.
    rewrite app_nil_r in Hfifo.
    split; [exact Hfifo|]. split.
    + rewrite (shaped_count _ Hbs Hshape), Hfifo. reflexivity.
    + intros b Hb. apply (inv_sizes Hinv b Hb). exact Hbs.
  - intros sched k b rs i t f r Hk Hrs Hb Hr.
    destruct (inv_good (inv_run sched)) as [_ _ Hcalls Hdone _].
    apply (Hdone f (inr r)).
    rewrite Hcalls. apply (plan_lookup _ k b); [exact Hk|].
    unfold Batcher.expected. rewrite Hrs.
    apply (in_map (fun fr => (fst fr, inr (snd fr))) _ (f, r)).
    eapply zip_lookup_in; eassumption.
Qed.

(** *** Every future is fulfilled once *)

Lemma never_stops_refused k texts e :
  never_stops -> predict_func k texts = inl e -> refused e = false.
Proof.
  intros Hns Hp. apply refused_false. intros ->. exact (Hns _ _ Hp).
Qed.

Lemma expected_full k b :
  returns_enough -> never_stops -> map fst (expected k b) = map snd b.
Proof.
  intros Hre Hns. unfold Batcher.expected.
  destruct (predict_func k (map fst b)) as [e|rs] eqn:Hp; rewrite map_map;
    simpl.
  - rewrite (never_stops_refused _ _ _ Hns Hp). apply map_id.
  - apply zip_fst_full. apply Hre in Hp.
    rewrite length_map in *. exact Hp.
Qed.

Lemma plan_fids_full lg :
  returns_enough -> never_stops -> map fst (plan lg) = map snd (concat lg).
Proof.
  intros Hre Hns. induction lg as [|b lg IH] using rev_ind; [reflexivity|].
  rewrite plan_snoc, concat_app, !map_app, IH, expected_full by assumption.
  simpl. rewrite app_nil_r. reflexivity.
Qed.

(** *** Progress of the worker *)

Lemma width_pos : (1 <= width)%nat.
Proof. unfold Batcher.width. lia. Qed.

Lemma potential_bound n st : (potential n st < (n + 1) * width)%nat.
Proof.
  unfold Batcher.potential, undone. pose proof width_pos.
  destruct (n - length (concat (log st)))%nat eqn:Hu; [nia|].
  rewrite <- Hu. nia.
Qed.

Lemma potential_zero n st :
  potential n st = O -> (n <= length (concat (log st)))%nat.
Proof.
  unfold Batcher.potential, undone. pose proof width_pos.
  destruct (n - length (concat (log st)))%nat eqn:Hu; [lia|].
  rewrite <- Hu. nia.
Qed.

Lemma concat_snoc_length lg its :
  length (concat (lg ++ [its])) = (length (concat lg) + length its)%nat.
Proof.
  rewrite concat_app, length_app. simpl. rewrite app_nil_r. reflexivity.
Qed.

(** Each [get] brings the first [n] requests closer to their batch. *)
Lemma potential_get reqs n st :
  never_stops ->
  batcher_inv reqs st -> (n <= length reqs)%nat ->
  (potential n (worker_get st) <= potential n st - 1)%nat.
Proof.
  intros Hns Hinv Hn.
  pose proof (alive _ _ Hns Hinv) as Halive.
  destruct Hinv as [_ Hgood Hitems _].
  pose proof (good_fifo Hgood) as Hfifo.
  apply (f_equal (@length _)) in Hfifo.
  unfold pending in Hfifo. rewrite !length_app in Hfifo.
  pose proof width_pos as Hw.
  unfold Batcher.worker_get. rewrite Halive.
  destruct (queue st) as [|x q] eqn:Hq.
  - destruct (items st) as [its|] eqn:Hi.
    + destruct (process_batch_shape its [] st) as (_ & Hi' & Hl').
      unfold Batcher.potential, undone. rewrite Hl', concat_snoc_length.
      simpl in Hfifo.
      replace (n - (length (concat (log st)) + length its))%nat with O by lia.
      lia.
    + simpl in Hfifo. unfold Batcher.potential, undone.
      replace (n - length (concat (log st)))%nat with O by lia. lia.
  - set (its := match items st with Some its => its ++ [x] | None => [x] end).
    assert (Hlen : length its = S (length (default [] (items st)))).
    { subst its. destruct (items st); simpl; [rewrite length_app; simpl|];
        lia. }
    destruct (Z.ltb_spec (Z.of_nat (length its)) batch_size) as [Hlt | Hge].
    + unfold Batcher.potential, undone. simpl.
      destruct (n - length (concat (log st)))%nat eqn:Hu; [lia|].
      rewrite Hlen. unfold Batcher.width in *. lia.
    + destruct (process_batch_shape its q st) as (_ & Hi' & Hl').
      unfold Batcher.potential, undone.
      rewrite Hl', Hi', concat_snoc_length, Hlen.
      simpl (length (default [] None)).
      assert (Hsmall : (length (default [] (items st)) <= width - 1)%nat).
      { destruct (items st) as [its0|] eqn:Hi; simpl; [|lia].
        destruct (Hitems its0 eq_refl). unfold Batcher.width. lia. }
      set (i := length (default [] (items st))) in *.
      set (c := length (concat (log st))) in *.
      destruct (n - (c + S i))%nat as [|a] eqn:Hu';
        destruct (n - c)%nat as [|a0] eqn:Hu; cbv beta iota; try lia.
      assert (S a0 = S a + S i)%nat by lia.
      assert (S i <= S i * width)%nat by nia.
      nia.
Qed.

Lemma requests_from_app n s1 s2 :
  requests_from n (s1 ++ s2)
  = requests_from n s1
    ++ requests_from (n + length (requests_from n s1)) s2.
Proof.
  revert n. induction s1 as [|[text|] s1 IH]; intros n; simpl.
  - rewrite Nat.add_0_r. reflexivity.
  - rewrite IH, Nat.add_succ_r. reflexivity.
  - apply IH.
Qed.

(** After enough [get]s, however the callers go on, the first [n]
    requests are all in a batch. *)
Lemma potential_run n tail : forall sched,
  never_stops ->
  (n <= length (requests sched))%nat ->
  (potential n (run init (sched ++ tail))
   <= potential n (run init sched) - gets tail)%nat.
Proof.
  induction tail as [|ev tail IH]; intros sched Hns Hn.
  - rewrite app_nil_r. unfold gets. simpl. lia.
  - replace (sched ++ ev :: tail) with ((sched ++ [ev]) ++ tail)
      by (rewrite <- app_assoc; reflexivity).
    assert (Hn' : (n <= length (requests (sched ++ [ev])))%nat).
    { unfold requests in *. rewrite requests_from_app, length_app. lia. }
    specialize (IH (sched ++ [ev]) Hns Hn'). rewrite run_snoc in IH.
    destruct ev as [text|].
    + change (gets (Submit text :: tail)) with (gets tail).
      exact IH.
    + change (gets (WorkerGet :: tail)) with (S (gets tail)).
      pose proof (potential_get _ n _ Hns (inv_run sched) Hn) as Hget.
      change (step (run init sched) WorkerGet)
        with (worker_get (run init sched)) in IH.
      lia.
Qed.

Lemma count_occ_once (l k : list nat) f :
  List.NoDup (l ++ k) -> In f l -> count_occ Nat.eq_dec l f = 1%nat.
Proof.
  intros Hnd Hin.
  apply (proj1 (List.NoDup_count_occ' Nat.eq_dec l)); [|exact Hin].
  eapply List.NoDup_app_remove_r, Hnd.
Qed.

(** C3.  Let [predict_func] return at least one element for each text
    whenever it returns, and let it never raise [StopIteration].  Futures
    are touched by the worker only (callers do not cancel) and take its
    calls (the debug mode of asyncio is off).  Take any schedule of
    callers and worker, and let it go on in any way in which the worker
    makes enough [get]s ([batch_size] for each request submitted so far,
    and as many again).  Then the worker is alive and every request
    submitted in the first part has its future finished by exactly one
    [set_result] or [set_exception] call: with the result at the
    request's position when [predict_func] returned on its batch, with
    the exception when it raised. *)
Theorem every_future_fulfilled_once sched tail :
  returns_enough ->
  never_stops ->
  ((length (requests sched) + 1) * width <= gets tail)%nat ->
  let st := run init (sched ++ tail) in
  dead st = None
  /\ forall t f, In (t, f) (requests sched) ->
       count_occ Nat.eq_dec (map fst (calls st)) f = 1%nat
       /\ exists k b v,
            log st !! k = Some b /\ In (t, f) b
            /\ futures st !! f = Some (Finished v)
            /\ In (f, v) (calls st)
            /\ match predict_func k (map fst b) with
               | inl e => v = inl e
               | inr rs =>
                   exists i r,
                     b !! i = Some (t, f) /\ rs !! i = Some r /\ v = inr r
               end.
Proof.
  intros Hre Hns Hgets. cbv zeta.
  pose proof (inv_run (sched ++ tail)) as Hinv.
  pose proof (potential_run (length (requests sched)) tail sched Hns
                (le_n _)) as Hpot.
  pose proof (potential_bound (length (requests sched)) (run init sched)).
  assert (Hdone0 : (length (requests sched)
                    <= length (concat (log (run init (sched ++ tail)))))%nat).
  { apply potential_zero. lia. }
  set (st := run init (sched ++ tail)) in *.
  split; [apply (alive _ _ Hns Hinv)|].
  destruct (inv_good Hinv) as [Hfifo Hids Hcalls Hdone _].
  assert (Hnd : List.NoDup (map snd (concat (log st))
                            ++ map snd (pending st))).
  { rewrite <- map_app, Hfifo, Hids. apply List.seq_NoDup. }
  intros t f Hin.
  assert (Hin' : In (t, f) (concat (log st))).
  { apply list_elem_of_In, list_elem_of_lookup_1 in Hin.
    destruct Hin as [j Hj].
    pose proof (lookup_lt_Some _ _ _ Hj) as Hlt.
    apply list_elem_of_In. apply (list_elem_of_lookup_2 _ j).
    rewrite <- (lookup_app_l _ (pending st)) by lia.
    rewrite Hfifo. unfold requests. rewrite requests_from_app.
    rewrite lookup_app_l by exact Hlt. exact Hj. }
  split.
  - rewrite Hcalls, (plan_fids_full _ Hre Hns).
    apply (count_occ_once _ _ _ Hnd). apply (in_map snd _ _ Hin').
  - apply in_concat in Hin'. destruct Hin' as (b & Hb & Hinb).
    apply list_elem_of_In, list_elem_of_lookup_1 in Hb. destruct Hb as [k Hk].
    pose proof Hinb as Hpos.
    apply list_elem_of_In, list_elem_of_lookup_1 in Hpos.
    destruct Hpos as [i Hi'].
    destruct (predict_func k (map fst b)) as [e|rs] eqn:Hp.
    + pose proof (never_stops_refused _ _ _ Hns Hp) as Hacc.
      assert (Hc : In (f, inl e) (calls st)).
      { rewrite Hcalls. apply (plan_lookup _ k b); [exact Hk|].
        unfold Batcher.expected. rewrite Hp, Hacc.
        apply (in_map (fun g => (g, inl e)) _ f).
        apply (in_map snd _ _ Hinb). }
      pose proof (Hdone _ _ Hc) as Hf. unfold landed in Hf.
      rewrite Hacc in Hf.
      exists k, b, (inl e). rewrite Hp. repeat split; auto.
    + assert (Hr : exists r, rs !! i = Some r).
      { apply lookup_lt_is_Some_2. apply Hre in Hp.
        rewrite length_map in Hp. apply lookup_lt_Some in Hi'. lia. }
      destruct Hr as [r Hr].
      assert (Hc : In (f, inr r) (calls st)).
      { rewrite Hcalls. apply (plan_lookup _ k b); [exact Hk|].
        unfold Batcher.expected. rewrite Hp.
        apply (in_map (fun fr => (fst fr, inr (snd fr))) _ (f, r)).
        eapply zip_lookup_in; eassumption. }
      pose proof (Hdone _ _ Hc) as Hf.
      exists k, b, (inr r). rewrite Hp. repeat split; auto. eauto.
Qed.

(** *** What is never touched again *)

Lemma set_results_other (pairs : list (fid * R)) h tr f :
  ~ In f (map fst pairs) -> (set_results pairs h tr).1.1 !! f = h !! f.
Proof.
  revert h tr. induction pairs as [|[g r] pairs IH]; intros h tr Hf;
    [reflexivity|].
  simpl in Hf. simpl. unfold set_result, set_future.
  destruct (h !! g) as [[|u]|]; try reflexivity.
  rewrite IH by (intros H; apply Hf; right; exact H).
  apply list_lookup_insert_ne. intros ->. apply Hf. left. reflexivity.
Qed.

Lemma set_exceptions_other (futs : list fid) (e : exn) h tr f :
  ~ In f futs -> (set_exceptions futs e h tr).1.1 !! f = h !! f.
Proof.
  revert h tr. induction futs as [|g futs IH]; intros h tr Hf;
    [reflexivity|].
  simpl in Hf. simpl. unfold set_exception.
  destruct (h !! g) as [[|u]|]; try reflexivity.
  destruct (refused e); [reflexivity|].
  rewrite IH by (intros H; apply Hf; right; exact H).
  apply list_lookup_insert_ne. intros ->. apply Hf. left. reflexivity.
Qed.

(** A batch touches the futures of its own requests only. *)
Lemma process_batch_other its q st f :
  ~ In f (map snd its) ->
  futures (process_batch its q st) !! f = futures st !! f.
Proof.
  intros Hf. unfold Batcher.process_batch.
  destruct (predict_func (length (log st)) (map fst its)) as [e|rs].
  - pose proof (set_exceptions_other (map snd its) e (futures st) (calls st)
                  f Hf) as H.
    destruct (set_exceptions _ e _ _) as [[h' tr'] [e'|]]; exact H.
  - assert (Hz : ~ In f (map fst (zip (map snd its) rs))).
    { intros H. apply Hf. apply in_map_iff in H.
      destruct H as ([g r] & <- & H). eapply zip_fst_in, H. }
    pose proof (set_results_other _ (futures st) (calls st) f Hz) as H.
    destruct (set_results _ _ _) as [[h' tr'] [e|]]; [|exact H].
    pose proof (set_exceptions_other (map snd its) e h' tr' f Hf) as H'.
    destruct (set_exceptions _ e _ _) as [[h'' tr''] [e'|]];
      simpl in *; congruence.
Qed.

(** A pending future whose request the worker does not hold and the queue
    does not hold stays pending for ever. *)
Lemma stays_pending more : forall st f,
  futures st !! f = Some Pending ->
  ~ In f (map snd (pending st)) ->
  futures (run st more) !! f = Some Pending.
Proof.
  induction more as [|ev more IH]; intros st f Hp Hf; [exact Hp|].
  pose proof (lookup_lt_Some _ _ _ Hp) as Hlt.
  unfold pending in Hf. rewrite map_app in Hf.
  simpl. apply IH; destruct ev as [text|]; simpl.
  - rewrite lookup_app_l by exact Hlt. exact Hp.
  - unfold Batcher.worker_get. destruct (dead st); [exact Hp|].
    destruct (queue st) as [|x q]; [destruct (items st) as [its|]|].
    + rewrite process_batch_other; [exact Hp|].
      intros H. apply Hf, in_or_app. left. exact H.
    + exact Hp.
    + destruct (_ <? _); [exact Hp|].
      rewrite process_batch_other; [exact Hp|].
      intros H. apply Hf. destruct (items st) as [its|]; simpl in *.
      * rewrite map_app in H. apply in_app_or in H.
        apply in_or_app. destruct H as [H | [<- | []]]; [left; exact H|].
        right. left. reflexivity.
      * destruct H as [<- | []]. left. reflexivity.
  - unfold pending. simpl. rewrite !map_app. simpl.
    intros H. apply in_app_or in H. destruct H as [H | H].
    + apply Hf, in_or_app. left. exact H.
    + apply in_app_or in H. destruct H as [H | [H | []]].
      * apply Hf, in_or_app. right. exact H.
      * lia.
  - unfold Batcher.worker_get. destruct (dead st) eqn:Hd.
    + unfold pending. rewrite map_app. exact Hf.
    + destruct (queue st) as [|x q] eqn:Hq;
        [destruct (items st) as [its|] eqn:Hi|].
      * unfold pending.
        destruct (process_batch_shape its [] st) as (-> & -> & _).
        intros [].
      * unfold pending. rewrite Hq, Hi, map_app. exact Hf.
      * set (its := match items st with
                    | Some its => its ++ [x]
                    | None => [x]
                    end) in *.
        assert (Hsub : forall g, In g (map snd its ++ map snd q) ->
                  In g (map snd (default [] (items st))
                        ++ map snd (x :: q))).
        { subst its. intros g Hg. destruct (items st) as [its0|]; simpl in *.
          - rewrite map_app in Hg. rewrite <- app_assoc in Hg. exact Hg.
          - exact Hg. }
        destruct (_ <? _).
        -- unfold pending. simpl. rewrite map_app.
           intros H. apply Hf, Hsub, H.
        -- unfold pending.
           destruct (process_batch_shape its q st) as (-> & -> & _).
           simpl. intros H. apply Hf, Hsub, in_or_app. right. exact H.
Qed.

(** A worker that has ended handles no batch. *)
Lemma dead_run_log more : forall st e,
  dead st = Some e ->
  dead (run st more) = Some e /\ log (run st more) = log st.
Proof.
  induction more as [|ev more IH]; intros st e Hd; [auto|].
  simpl. destruct ev as [text|]; simpl.
  - destruct (IH (snd (submit text st)) e Hd) as [H1 H2]. auto.
  - unfold Batcher.worker_get. rewrite Hd. apply IH, Hd.
Qed.

End Worker.

(** *** The properties at work *)

Example one_batch_of_three :
  let st := run sizes 8 init (three_at_once ++ repeat WorkerGet 4) in
  log st = [three_requests]
  /\ futures st
     = [Finished (inr 13%nat); Finished (inr 8%nat); Finished (inr 2%nat)]
  /\ dead st = None.
Proof. repeat split. Qed.

(** With a pipeline that returns one element for each text,
    [_predict_batch] does so too. *)
Lemma analyzer_returns_enough {Tokenizer Model Pipeline : Type}
      (w : Analyzer.world Tokenizer Model Pipeline)
      (an : nat -> Analyzer.analyzer Pipeline) :
  (forall p texts raws,
     Analyzer.call_pipeline w p texts = inr raws ->
     (length texts <= length raws)%nat) ->
  returns_enough (analyzer_predict_func w an).
Proof.
  intros Hw k texts rs Hr. unfold analyzer_predict_func in Hr.
  destruct (Analyzer.predict_batch w texts (an k, [])) as [s' out] eqn:E.
  simpl in Hr. subst out.
  destruct (AnalyzerFacts.predict_batch_returns _ _ _ _ _ _ E)
    as (p & raws & _ & Hc & -> & _).
  rewrite length_map. eapply Hw, Hc.
Qed.

Lemma serving_returns_enough : returns_enough serving_predict_func.
Proof.
  apply analyzer_returns_enough.
  intros p texts raws [= <-]. rewrite length_map. reflexivity.
Qed.

Lemma serving_never_stops : never_stops serving_predict_func.
Proof. intros k texts. discriminate. Qed.

Lemma sizes_never_stops : never_stops sizes.
Proof. intros k texts. discriminate. Qed.

(** The scenario of the analyzer: one call of [_predict_batch] on the three
    texts, three results in the order of the requests. *)
Example serving_three_at_once :
  let st := run serving_predict_func default_batch_size init
                (three_at_once ++ repeat WorkerGet 4) in
  log st = [three_requests]
  /\ futures st
     = repeat (Finished (inr (Analyzer.Prediction (lit "positive")
                                                  (PyFloat 0)))) 3.
Proof. repeat split. Qed.

Lemma every_future_fulfilled_once_witness :
  let st := run serving_predict_func default_batch_size init
                (three_at_once ++ repeat WorkerGet 32) in
  returns_enough serving_predict_func
  /\ never_stops serving_predict_func
  /\ dead st = None
  /\ forall t f, In (t, f) (requests three_at_once) ->
       count_occ Nat.eq_dec (map fst (calls st)) f = 1%nat
       /\ exists k b v,
            log st !! k = Some b /\ In (t, f) b
            /\ futures st !! f = Some (Finished v)
            /\ In (f, v) (calls st)
            /\ match serving_predict_func k (map fst b) with
               | inl e => v = inl e
               | inr rs =>
                   exists i r,
                     b !! i = Some (t, f) /\ rs !! i = Some r /\ v = inr r
               end.
Proof.
  split; [exact serving_returns_enough|].
  split; [exact serving_never_stops|].
  apply (every_future_fulfilled_once serving_predict_func default_batch_size
           three_at_once (repeat WorkerGet 32)).
  - exact serving_returns_enough.
  - exact serving_never_stops.
  - vm_compute. lia.
Defined.

Lemma batch_failure_reaches_every_request_witness :
  let st := run first_fails 2 init (three_at_once ++ repeat WorkerGet 4) in
  let b := [(lit "great product", 0%nat); (lit "terrible", 1%nat)] in
  let e := OtherError 1 in
  log st !! 0%nat = Some b
  /\ first_fails 0 (map fst b) = inl e
  /\ (futures st !! 0%nat = Some (Finished (inl e))
      /\ In (0%nat, inl e) (calls st)
      /\ (forall v, In (0%nat, v) (calls st) -> v = inl e))
  /\ (futures st !! 1%nat = Some (Finished (inl e))
      /\ In (1%nat, inl e) (calls st)
      /\ (forall v, In (1%nat, v) (calls st) -> v = inl e)).
Proof.
  split; [reflexivity|]. split; [reflexivity|]. split.
  - apply (batch_failure_reaches_every_request first_fails 2
             (three_at_once ++ repeat WorkerGet 4) 0
             [(lit "great product", 0%nat); (lit "terrible", 1%nat)]
             (OtherError 1) (lit "great product") 0%nat).
    + reflexivity.
    + reflexivity.
    + discriminate.
    + left. reflexivity.
  - apply (batch_failure_reaches_every_request first_fails 2
             (three_at_once ++ repeat WorkerGet 4) 0
             [(lit "great product", 0%nat); (lit "terrible", 1%nat)]
             (OtherError 1) (lit "terrible") 1%nat).
    + reflexivity.
    + reflexivity.
    + discriminate.
    + right. left. reflexivity.
Defined.

Lemma batches_are_fifo_slices_witness :
  let sched := [Submit (lit "great product"); WorkerGet;
                Submit (lit "terrible"); Submit (lit "ok")] in
  let st := run sizes 2 init (sched ++ repeat WorkerGet 3) in
  1 <= 2
  /\ never_stops sizes
  /\ concat (log st) = three_requests
  /\ Z.of_nat (length (log st)) = (3 + 2 - 1) / 2
  /\ (forall b, In b (log st) -> Z.of_nat (length b) <= 2)
  /\ futures st !! 1%nat = Some (Finished (inr 8%nat)).
Proof.
  cbv zeta.
  assert (Hbs : 1 <= 2) by lia.
  destruct (batches_are_fifo_slices sizes 2 Hbs) as (_ & Hburst & Hpos).
  destruct (Hburst sizes_never_stops
                   [Submit (lit "great product"); WorkerGet;
                    Submit (lit "terrible"); Submit (lit "ok")] 3%nat)
    as (Hall & Hcount & Hsize); [reflexivity | simpl; lia |].
  split; [exact Hbs|]. split; [exact sizes_never_stops|].
  split; [exact Hall|]. split; [exact Hcount|].
  split; [exact Hsize|].
  apply (Hpos ([Submit (lit "great product"); WorkerGet;
                Submit (lit "terrible"); Submit (lit "ok")]
               ++ repeat WorkerGet 3) 0%nat
              [(lit "great product", 0%nat); (lit "terrible", 1%nat)]
              [13%nat; 8%nat] 1%nat (lit "terrible") 1%nat 8%nat);
    reflexivity.
Defined.

Lemma batches_nonempty_and_bounded_witness :
  1 <= 8
  /\ map fst three_requests <> []
  /\ (1 <= length three_requests)%nat
  /\ Z.of_nat (length three_requests) <= 8.
Proof.
  assert (Hbs : 1 <= 8) by lia.
  split; [exact Hbs|].
  apply (batches_nonempty_and_bounded sizes 8
           (three_at_once ++ repeat WorkerGet 4) three_requests Hbs).
  simpl. auto.
Defined.

(** With a batch size of zero the worker still takes one request per
    batch. *)
Example batch_size_zero :
  log (run sizes 0 init (three_at_once ++ repeat WorkerGet 4))
  = [[(lit "great product", 0%nat)]; [(lit "terrible", 1%nat)];
     [(lit "ok", 2%nat)]].
Proof. reflexivity. Qed.

(** A request is left pending for ever when [predict_func] returns one
    result too few ([zip] stops at the shorter list), and when it raises
    [StopIteration] (the first [set_exception] raises [TypeError] and the
    worker thread ends). *)
Lemma some_future_is_left_pending :
  let sched := three_at_once ++ repeat WorkerGet 4 in
  In (lit "ok", 2%nat) (requests sched)
  /\ (let st := run one_short 8 init sched in
      log st = [three_requests]
      /\ dead st = None
      /\ forall more,
           futures (run one_short 8 st more) !! 2%nat = Some Pending)
  /\ (let st := run stop_iteration 8 init sched in
      log st = [three_requests]
      /\ dead st = Some stop_iteration_refused
      /\ forall more,
           futures (run stop_iteration 8 st more) !! 2%nat = Some Pending).
Proof.
  cbv zeta. split; [right; right; left; reflexivity|].
  split; (split; [reflexivity|]; split; [reflexivity|]); intros more;
    (apply stays_pending; [reflexivity | intros []]).
Qed.

(** When [predict_func] raises [StopIteration] on a batch, no request of
    the batch is failed: the futures stay pending for ever and the worker
    thread has ended. *)
Lemma stop_iteration_reaches_no_request :
  let st := run stop_iteration 8 init (three_at_once ++ repeat WorkerGet 4) in
  log st !! 0%nat = Some three_requests
  /\ stop_iteration 0 (map fst three_requests) = inl StopIteration
  /\ calls st = [(0%nat, inl StopIteration)]
  /\ dead st = Some stop_iteration_refused
  /\ forall more t f,
       In (t, f) three_requests ->
       futures (run stop_iteration 8 st more) !! f = Some Pending.
Proof.
  cbv zeta. repeat (split; [reflexivity|]).
  intros more t f [[= <- <-] | [[= <- <-] | [[= <- <-] | []]]];
    (apply stays_pending; [reflexivity | intros []]).
Qed.

(** A burst of three requests with a batch size of two, when
    [predict_func] raises [StopIteration]: one call, not two, however
    long the worker is given. *)
Lemma stop_iteration_ends_the_burst :
  no_timeout stop_iteration 2 init three_at_once = true
  /\ (length (queue (run stop_iteration 2 init three_at_once)) < 4)%nat
  /\ forall m,
       let st := run stop_iteration 2 init
                     (three_at_once ++ repeat WorkerGet (4 + m)) in
       log st = [[(lit "great product", 0%nat); (lit "terrible", 1%nat)]]
       /\ concat (log st) <> requests three_at_once
       /\ Z.of_nat (length (log st))
          <> (Z.of_nat (length (requests three_at_once)) + 2 - 1) / 2.
Proof.
  split; [reflexivity|]. split; [simpl; lia|]. intros m. cbv zeta.
  change (repeat WorkerGet (4 + m))
    with (repeat WorkerGet 4 ++ repeat WorkerGet m).
  rewrite app_assoc, run_app.
  destruct (dead_run_log stop_iteration 2 (repeat WorkerGet m)
              (run stop_iteration 2 init (three_at_once ++ repeat WorkerGet 4))
              stop_iteration_refused eq_refl) as [_ ->].
  split; [reflexivity|]. split; discriminate.
Qed.

End BatcherFacts.

(** ** The handler over a stream of events *)

Module WatcherRunFacts.

Import Watcher WatcherRun.

(** An event either leaves the handler alone, or it triggers a reload,
    and then more than the cooldown has passed since the last one. *)
Lemma dispatch_cases (h : handler) (now : Q) (ev : fs_event) :
  dispatch h now ev = (h, [])
  \/ (dispatch h now ev
      = (Handler now (reload_cooldown h),
         [LogTrigger (src_path ev); Sleep (1 # 2); LoadModel])
      /\ (reload_cooldown h < now - last_reload_time h)%Q).
Proof.
  unfold dispatch, on_created.
  destruct (kind ev); auto; rewrite WatcherFacts.on_modified_cases;
    cbv zeta;
    destruct (negb (is_directory ev)
              && existsb (fun mf => contains (src_path ev) mf) model_files
              && gt (now - last_reload_time h) (reload_cooldown h)) eqn:Hq;
    auto; right; (split; [reflexivity|]);
    apply andb_true_iff in Hq; destruct Hq as [_ Hgt];
    apply WatcherFacts.gt_spec, Hgt.
Qed.

Lemma last_nonempty (ts : list Q) (t d d' : Q) :
  List.last (t :: ts) d = List.last (t :: ts) d'.
Proof.
  revert t. induction ts as [|u ts IH]; intros t; [reflexivity|].
  change (List.last (u :: ts) d = List.last (u :: ts) d'). apply IH.
Qed.

(** X1.  Whatever events the handler is given, and at whatever times, two
    reloads in a row are more than the cooldown apart, and the first is
    more than the cooldown after the last reload before; the handler ends
    with the time of the last reload it triggered, and its cooldown never
    changes. *)
Theorem reloads_are_spaced (h : handler) (evs : list (Q * fs_event)) :
  spaced (reload_cooldown h) (last_reload_time h) (snd (handle_all h evs))
  /\ reload_cooldown (fst (handle_all h evs)) = reload_cooldown h
  /\ last_reload_time (fst (handle_all h evs))
     = List.last (snd (handle_all h evs)) (last_reload_time h).
Proof.
  revert h. induction evs as [|[now ev] evs IH]; intros h.
  - simpl. auto.
  - cbn [handle_all].
    destruct (dispatch_cases h now ev) as [-> | [-> Hgt]].
    + specialize (IH h). destruct (handle_all h evs) as [h'' ts].
      simpl in *. exact IH.
    + specialize (IH (Handler now (reload_cooldown h))).
      destruct (handle_all (Handler now (reload_cooldown h)) evs)
        as [h'' ts].
      simpl in *. destruct IH as (Hs & Hc & Hl).
      split; [auto|]. split; [exact Hc|].
      rewrite Hl. destruct ts as [|t ts]; [reflexivity|].
      apply last_nonempty.
Qed.

Lemma dispatch_quiet (h : handler) (now : Q) (ev : fs_event) :
  (now - last_reload_time h <= reload_cooldown h)%Q ->
  dispatch h now ev = (h, []).
Proof.
  intros Hle. destruct (dispatch_cases h now ev) as [H | [_ Hgt]];
    [exact H|].
  exfalso. apply (Qlt_not_le _ _ Hgt). exact Hle.
Qed.

(** X2.  Events that all come within the cooldown of the last reload
    trigger nothing, however many they are and whatever files they name:
    no reload, and the handler is unchanged. *)
Theorem burst_gives_no_reload (h : handler) (evs : list (Q * fs_event)) :
  (forall now ev, In (now, ev) evs ->
     (now - last_reload_time h <= reload_cooldown h)%Q) ->
  handle_all h evs = (h, []).
Proof.
  induction evs as [|[now ev] evs IH]; intros Hall.
  - reflexivity.
  - cbn [handle_all].
    rewrite dispatch_quiet by (apply (Hall now ev); left; reflexivity).
    rewrite IH by (intros n e Hin; apply (Hall n e); right; exact Hin).
    reflexivity.
Qed.

Example one_save_reloads_twice :
  snd (handle_all new_handler one_save) = [1000; 1010]%Q.
Proof. reflexivity. Qed.

Lemma burst_gives_no_reload_witness :
  handle_all (Handler 1000 2)
    [((2001 # 2)%Q, FsEvent Modified false (lit "./model/pytorch_model.bin"));
     (1001%Q, FsEvent Modified false (lit "./model/tokenizer.json"))]
  = (Handler 1000 2, []).
Proof.
  apply (burst_gives_no_reload (Handler 1000 2)).
  intros now ev [[= <- <-] | [[= <- <-] | []]]; simpl; discriminate.
Defined.

End WatcherRunFacts.

(** ** The batcher: futures that are done, and a worker that is dead *)

Module BatcherMore.

Import Batcher Notions.

Section Worker.

Context {R : Type}.
Variable predict_func : nat -> list str -> exn + list R.
Variable batch_size : Z.

Local Abbreviation process_batch := (process_batch predict_func).
Local Abbreviation worker_get := (worker_get predict_func batch_size).
Local Abbreviation step := (step predict_func batch_size).
Local Abbreviation run := (run predict_func batch_size).

Implicit Types (st : state R) (its q : list request)
  (h : list (fstate R)) (tr : trace R) (f g : fid).

(** *** A finished future is left alone *)

Lemma set_future_keeps g (w : exn + R) h h' f v :
  set_future g w h = inr h' ->
  h !! f = Some (Finished v) -> h' !! f = Some (Finished v).
Proof.
  unfold set_future. destruct (h !! g) as [[|u]|] eqn:Hg; try discriminate.
  intros [= <-] Hf. rewrite list_lookup_insert_ne; [exact Hf|].
  intros ->. congruence.
Qed.

(** A [set_exception] that returns has finished the future. *)
Lemma set_exception_inr g (e : exn) h h' :
  set_exception g e h = inr h' -> set_future g (inl e) h = inr h'.
Proof.
  unfold set_exception, set_future.
  destruct (h !! g) as [[|u]|]; try discriminate.
  destruct (refused e); [discriminate|]. intros H. exact H.
Qed.

Lemma set_results_keeps (pairs : list (fid * R)) h tr f v :
  h !! f = Some (Finished v) ->
  fst (fst (set_results pairs h tr)) !! f = Some (Finished v).
Proof.
  revert h tr. induction pairs as [|[g r] pairs IH]; intros h tr Hf; simpl.
  - exact Hf.
  - destruct (set_result g r h) as [e|h'] eqn:Hs; simpl; [exact Hf|].
    apply IH. eapply set_future_keeps; eassumption.
Qed.

Lemma set_exceptions_keeps (futs : list fid) (e : exn) h tr f v :
  h !! f = Some (Finished v) ->
  fst (fst (set_exceptions futs e h tr)) !! f = Some (Finished v).
Proof.
  revert h tr. induction futs as [|g futs IH]; intros h tr Hf; simpl.
  - exact Hf.
  - destruct (set_exception g e h) as [e'|h'] eqn:Hs; simpl; [exact Hf|].
    apply IH. apply set_exception_inr in Hs.
    eapply set_future_keeps; eassumption.
Qed.

Lemma process_batch_keeps its q st f v :
  futures st !! f = Some (Finished v) ->
  futures (process_batch its q st) !! f = Some (Finished v).
Proof.
  intros Hf. unfold Batcher.process_batch.
  destruct (predict_func (length (log st)) (map fst its)) as [e|rs].
  - pose proof (set_exceptions_keeps (map snd its) e _ (calls st) _ _ Hf)
      as H.
    destruct (set_exceptions _ e _ _) as [[h' tr'] [e'|]]; exact H.
  - pose proof (set_results_keeps (zip (map snd its) rs) _ (calls st) _ _ Hf)
      as H.
    destruct (set_results _ _ _) as [[h' tr'] [e|]]; simpl in H; [|exact H].
    pose proof (set_exceptions_keeps (map snd its) e _ tr' _ _ H) as H'.
    destruct (set_exceptions _ e _ _) as [[h'' tr''] [e'|]]; exact H'.
Qed.

Lemma step_keeps st ev f v :
  futures st !! f = Some (Finished v) ->
  futures (step st ev) !! f = Some (Finished v).
Proof.
  intros Hf. destruct ev as [text|]; simpl.
  - rewrite lookup_app_l; [exact Hf|]. eapply lookup_lt_Some, Hf.
  - unfold Batcher.worker_get.
    destruct (dead st); [exact Hf|].
    destruct (queue st) as [|x q]; [destruct (items st)|];
      try exact Hf; try (apply process_batch_keeps; exact Hf).
    destruct (_ <? _); [exact Hf | apply process_batch_keeps; exact Hf].
Qed.

(** X3.  A future that is finished keeps its value for ever: whatever
    the callers and the worker do afterwards, in whatever state the
    batcher is, no [set_result] or [set_exception] changes it. *)
Theorem finished_future_never_changes st (sched : list event) f v :
  futures st !! f = Some (Finished v) ->
  futures (run st sched) !! f = Some (Finished v).
Proof.
  revert st. induction sched as [|ev sched IH]; intros st Hf; simpl.
  - exact Hf.
  - apply IH, step_keeps, Hf.
Qed.

(** *** A done future in a batch *)

Lemma set_future_stays_done g (w : exn + R) h h' f :
  set_future g w h = inr h' ->
  h !! f <> Some Pending -> h' !! f <> Some Pending.
Proof.
  unfold set_future. destruct (h !! g) as [[|u]|] eqn:Hg; try discriminate.
  intros [= <-] Hf. rewrite list_lookup_insert_ne; [exact Hf|].
  intros ->. congruence.
Qed.

(** With a done future among [futs] the loop of the handler raises:
    [InvalidStateError] at the done future, unless a [StopIteration] was
    refused before. *)
Lemma set_exceptions_hits (futs : list fid) (e : exn) h tr f :
  In f futs -> h !! f <> Some Pending ->
  exists e',
    snd (set_exceptions futs e h tr) = Some e'
    /\ (e' = InvalidStateError
        \/ (refused e = true /\ e' = stop_iteration_refused)).
Proof.
  revert h tr. induction futs as [|g futs IH]; intros h tr Hin Hf;
    [destruct Hin|].
  simpl. destruct (set_exception g e h) as [e'|h'] eqn:Hs.
  - exists e'. split; [reflexivity|]. unfold set_exception in Hs.
    destruct (h !! g) as [[|u]|];
      [destruct (refused e); [|discriminate] | |];
      injection Hs as <-; [right | left | left]; split; reflexivity.
  - destruct Hin as [-> | Hin].
    + exfalso. unfold set_exception in Hs.
      destruct (h !! f) as [[|u]|]; try discriminate. apply Hf. reflexivity.
    + apply IH; [exact Hin|]. apply set_exception_inr in Hs.
      eapply set_future_stays_done; eassumption.
Qed.

Lemma set_results_hits (pairs : list (fid * R)) h tr f :
  In f (map fst pairs) -> h !! f <> Some Pending ->
  snd (set_results pairs h tr) = Some InvalidStateError
  /\ fst (fst (set_results pairs h tr)) !! f <> Some Pending.
Proof.
  revert h tr. induction pairs as [|[g r] pairs IH]; intros h tr Hin Hf;
    [destruct Hin|].
  simpl. destruct (set_result g r h) as [e'|h'] eqn:Hs.
  - unfold set_result, set_future in Hs. simpl.
    destruct (h !! g) as [[|u]|]; try discriminate;
      injection Hs as <-; auto.
  - simpl in Hin. destruct Hin as [-> | Hin].
    + exfalso. unfold set_result, set_future in Hs.
      destruct (h !! f) as [[|u]|]; try discriminate. apply Hf. reflexivity.
    + apply IH; [exact Hin|]. eapply set_future_stays_done; eassumption.
Qed.

(** X4.  If a future of the batch is already done when the batch is
    processed (its caller was cancelled, say), the worker thread ends,
    provided [predict_func] raises or returns at least one result for
    each text: the [set_result] or [set_exception] on that future raises,
    and the handler's own loop raises again, outside any [try].  It ends
    with [InvalidStateError], unless [predict_func] raised
    [StopIteration]: then it may end earlier, with the [TypeError] of a
    pending future that refused it.  The done future keeps its value. *)
Theorem done_future_ends_worker st its q f v :
  In f (map snd its) ->
  futures st !! f = Some (Finished v) ->
  (forall rs, predict_func (length (log st)) (map fst its) = inr rs ->
              (length its <= length rs)%nat) ->
  (predict_func (length (log st)) (map fst its) <> inl StopIteration ->
   dead (process_batch its q st) = Some InvalidStateError)
  /\ (exists e,
        dead (process_batch its q st) = Some e
        /\ (e = InvalidStateError \/ e = stop_iteration_refused))
  /\ futures (process_batch its q st) !! f = Some (Finished v).
Proof.
  intros Hin Hf Hlen.
  assert (Hnp : futures st !! f <> Some Pending) by (rewrite Hf; discriminate).
  assert (H : exists e,
             dead (process_batch its q st) = Some e
             /\ (e = InvalidStateError
                 \/ (predict_func (length (log st)) (map fst its)
                     = inl StopIteration
                     /\ e = stop_iteration_refused))).
  { unfold Batcher.process_batch.
    destruct (predict_func (length (log st)) (map fst its)) as [e|rs] eqn:Hp.
    - destruct (set_exceptions_hits (map snd its) e (futures st) (calls st)
                  f Hin Hnp) as (e' & H & He').
      destruct (set_exceptions _ e _ _) as [[h' tr'] o]. simpl in H.
      subst o. exists e'. split; [reflexivity|].
      destruct He' as [-> | [Hr ->]]; [left; reflexivity|].
      right. split; [|reflexivity]. destruct e; try discriminate.
      reflexivity.
    - assert (Hin' : In f (map fst (zip (map snd its) rs))).
      { rewrite BatcherFacts.zip_fst_full; [exact Hin|].
        rewrite length_map. apply Hlen. reflexivity. }
      destruct (set_results_hits _ _ (calls st) f Hin' Hnp) as [H1 H2].
      destruct (set_results _ _ _) as [[h' tr'] o]. simpl in H1, H2.
      subst o.
      destruct (set_exceptions_hits (map snd its) InvalidStateError
                  h' tr' f Hin H2) as (e' & H & He').
      destruct (set_exceptions _ _ _ _) as [[h'' tr''] o]. simpl in H.
      subst o. exists e'. split; [reflexivity|].
      destruct He' as [-> | [Hr _]]; [left; reflexivity | discriminate]. }
  destruct H as (e & Hd & He). split; [|split].
  - intros Hne. rewrite Hd.
    destruct He as [-> | [Hs _]]; [reflexivity | contradiction].
  - exists e. split; [exact Hd|].
    destruct He as [-> | [_ ->]]; [left | right]; reflexivity.
  - apply process_batch_keeps, Hf.
Qed.

(** *** A dead worker *)

(** X5.  Once the worker thread has ended with an exception, nothing is
    served any more: whatever callers and scheduler do, no batch is
    handed to [predict_func], no future is touched, and every request
    submitted from then on stays queued with a pending future. *)
Theorem dead_worker_serves_nothing st (e : exn) (sched : list event) :
  dead st = Some e ->
  dead (run st sched) = Some e
  /\ log (run st sched) = log st
  /\ calls (run st sched) = calls st
  /\ items (run st sched) = items st
  /\ queue (run st sched)
     = queue st ++ requests_from (length (futures st)) sched
  /\ futures (run st sched)
     = futures st
       ++ repeat Pending (length (requests_from (length (futures st)) sched)).
Proof.
  revert st. induction sched as [|ev sched IH]; intros st Hd.
  - simpl. rewrite !app_nil_r. repeat split; auto.
  - destruct ev as [text|].
    + change (run st (Submit text :: sched))
        with (run (snd (submit text st)) sched).
      destruct (IH (snd (submit text st)) Hd)
        as (H1 & H2 & H3 & H4 & H5 & H6).
      rewrite H1, H2, H3, H4, H5, H6. simpl.
      rewrite length_app, Nat.add_1_r, <- !app_assoc. simpl.
      repeat split; auto.
    + change (run st (WorkerGet :: sched)) with (run (worker_get st) sched).
      assert (Hw : worker_get st = st).
      { unfold Batcher.worker_get. rewrite Hd. reflexivity. }
      rewrite Hw. simpl. apply IH, Hd.
Qed.

(** *** When a batch is handed over *)

(** X6.  The worker hands a batch over on one of two occasions only: a
    [get] times out while it holds items, and then the batch is what it
    holds; or the item a [get] returns makes the batch reach
    [batch_size].  So a batch shorter than [batch_size] has waited for a
    timeout. *)
Theorem batch_is_full_or_timed_out (sched : list event) (b : list request) :
  let st := run init sched in
  log (worker_get st) = log st ++ [b] ->
  (queue st = [] /\ items st = Some b)
  \/ (exists x q,
        queue st = x :: q
        /\ b = default [] (items st) ++ [x]
        /\ batch_size <= Z.of_nat (length b)
        /\ (1 <= batch_size -> Z.of_nat (length b) = batch_size)).
Proof.
  cbv zeta. intros Hlog.
  pose proof (BatcherFacts.inv_run predict_func batch_size sched) as Hinv.
  pose proof (inv_items Hinv) as Hitems.
  set (st := run init sched) in *.
  assert (Hsame : log st <> log st ++ [b]).
  { intros H. apply (f_equal (@length _)) in H.
    rewrite length_app in H. simpl in H. lia. }
  unfold Batcher.worker_get in Hlog.
  destruct (dead st) as [e|]; [congruence|].
  destruct (queue st) as [|x q] eqn:Hq.
  - destruct (items st) as [its|] eqn:Hi; [|congruence].
    destruct (BatcherFacts.process_batch_shape predict_func its [] st)
      as (_ & _ & Hl).
    rewrite Hl in Hlog. apply app_inj_tail in Hlog.
    destruct Hlog as [_ <-]. auto.
  - right. exists x, q. split; [reflexivity|].
    set (its := match items st with Some its => its ++ [x] | None => [x] end)
      in *.
    assert (Hits : its = default [] (items st) ++ [x]).
    { subst its. destruct (items st); reflexivity. }
    destruct (Z.ltb_spec (Z.of_nat (length its)) batch_size) as [Hlt | Hge];
      [simpl in Hlog; congruence|].
    destruct (BatcherFacts.process_batch_shape predict_func its q st)
      as (_ & _ & Hl).
    rewrite Hl in Hlog. apply app_inj_tail in Hlog.
    destruct Hlog as [_ <-]. split; [exact Hits|]. split; [exact Hge|].
    intros Hbs. rewrite Hits, length_app. simpl.
    destruct (items st) as [its0|] eqn:Hi; simpl.
    + destruct (Hitems its0 eq_refl) as [_ Hlt].
      rewrite Hits, length_app in Hge. simpl in Hge. lia.
    + rewrite Hits in Hge. simpl in Hge. lia.
Qed.

(** *** Where the value of a future comes from *)

Lemma set_future_accounted g (w : exn + R) h h' tr :
  set_future g w h = inr h' -> accounted h tr ->
  accounted h' (tr ++ [(g, w)]).
Proof.
  unfold set_future. destruct (h !! g) as [[|u]|] eqn:Hg; try discriminate.
  intros [= <-] Hacc f v Hf. apply in_or_app.
  destruct (Nat.eq_dec g f) as [->|Hne].
  - rewrite list_lookup_insert_eq in Hf by (eapply lookup_lt_Some, Hg).
    injection Hf as <-. right. left. reflexivity.
  - rewrite list_lookup_insert_ne in Hf by exact Hne. left. apply Hacc, Hf.
Qed.

Lemma accounted_more h tr tr' : accounted h tr -> accounted h (tr ++ tr').
Proof. intros H f v Hf. apply in_or_app. left. apply H, Hf. Qed.

Lemma set_results_accounted (pairs : list (fid * R)) h tr :
  accounted h tr ->
  accounted (fst (fst (set_results pairs h tr)))
            (snd (fst (set_results pairs h tr))).
Proof.
  revert h tr. induction pairs as [|[g r] pairs IH]; intros h tr Hacc; simpl.
  - exact Hacc.
  - destruct (set_result g r h) as [e|h'] eqn:Hs; simpl.
    + apply accounted_more, Hacc.
    + apply IH. eapply set_future_accounted; eassumption.
Qed.

Lemma set_exceptions_accounted (futs : list fid) (e : exn) h tr :
  accounted h tr ->
  accounted (fst (fst (set_exceptions futs e h tr)))
            (snd (fst (set_exceptions futs e h tr))).
Proof.
  revert h tr. induction futs as [|g futs IH]; intros h tr Hacc; simpl.
  - exact Hacc.
  - destruct (set_exception g e h) as [e'|h'] eqn:Hs; simpl.
    + apply accounted_more, Hacc.
    + apply IH. apply set_exception_inr in Hs.
      eapply set_future_accounted; eassumption.
Qed.

Lemma process_batch_accounted its q st :
  accounted (futures st) (calls st) ->
  accounted (futures (process_batch its q st))
            (calls (process_batch its q st)).
Proof.
  intros Hacc. unfold Batcher.process_batch.
  destruct (predict_func (length (log st)) (map fst its)) as [e|rs].
  - pose proof (set_exceptions_accounted (map snd its) e _ _ Hacc) as H.
    destruct (set_exceptions _ e _ _) as [[h' tr'] [e'|]]; exact H.
  - pose proof (set_results_accounted (zip (map snd its) rs) _ _ Hacc) as H.
    destruct (set_results _ _ _) as [[h' tr'] [e|]]; simpl in H; [|exact H].
    pose proof (set_exceptions_accounted (map snd its) e _ _ H) as H'.
    destruct (set_exceptions _ e _ _) as [[h'' tr''] [e'|]]; exact H'.
Qed.

Lemma step_accounted st ev :
  accounted (futures st) (calls st) ->
  accounted (futures (step st ev)) (calls (step st ev)).
Proof.
  intros Hacc. destruct ev as [text|]; simpl.
  - intros f v Hf. apply Hacc.
    destruct (lt_dec f (length (futures st))) as [Hlt|Hge].
    + rewrite lookup_app_l in Hf by exact Hlt. exact Hf.
    + rewrite lookup_app_r in Hf by lia.
      destruct (f - length (futures st))%nat; discriminate.
  - unfold Batcher.worker_get.
    destruct (dead st); [exact Hacc|].
    destruct (queue st) as [|x q]; [destruct (items st)|];
      try exact Hacc; try (apply process_batch_accounted; exact Hacc).
    destruct (_ <? _); [exact Hacc | apply process_batch_accounted, Hacc].
Qed.

Lemma run_accounted (sched : list event) :
  accounted (futures (run init sched)) (calls (run init sched)).
Proof.
  induction sched as [|ev sched IH] using rev_ind.
  - intros f v Hf. destruct f; discriminate.
  - rewrite BatcherFacts.run_snoc. apply step_accounted, IH.
Qed.

Lemma in_snd_lookup (b : list request) f :
  In f (map snd b) -> exists i t, b !! i = Some (t, f).
Proof.
  intros H. apply in_map_iff in H. destruct H as ([t g] & Hg & Hin).
  simpl in Hg. subst g.
  apply list_elem_of_In, list_elem_of_lookup_1 in Hin.
  destruct Hin as [i Hi]. eauto.
Qed.

Lemma zip_in_lookup (b : list request) (rs : list R) f r :
  In (f, r) (zip (map snd b) rs) ->
  exists i t, b !! i = Some (t, f) /\ rs !! i = Some r.
Proof.
  revert rs. induction b as [|[t' f'] b IH]; intros [|s rs]; simpl;
    try (intros []; fail).
  intros [[= -> ->] | H].
  - exists 0%nat, t'. split; reflexivity.
  - destruct (IH _ H) as (i & t & Hb & Hr). exists (S i), t. auto.
Qed.

(** The value of a finished future is what its batch was due at its
    position. *)
Lemma finished_is_due (sched : list event) f v :
  futures (run init sched) !! f = Some (Finished v) ->
  exists k b i t,
    log (run init sched) !! k = Some b
    /\ b !! i = Some (t, f)
    /\ match predict_func k (map fst b) with
       | inl e => v = inl e
       | inr rs => exists r, rs !! i = Some r /\ v = inr r
       end.
Proof.
  intros Hf. apply run_accounted in Hf.
  rewrite (good_calls
             (inv_good (BatcherFacts.inv_run predict_func batch_size sched)))
    in Hf.
  apply BatcherFacts.plan_in in Hf. destruct Hf as (k & b & Hk & Hin).
  exists k, b. unfold expected in Hin.
  destruct (predict_func k (map fst b)) as [e|rs];
    apply in_map_iff in Hin.
  - destruct Hin as (g & [= <- <-] & Hg).
    assert (Hg' : In g (map snd b)).
    { destruct (refused e); [apply BatcherFacts.take_1_in|]; exact Hg. }
    destruct (in_snd_lookup _ _ Hg') as (i & t & Hi). exists i, t. auto.
  - destruct Hin as ([g r] & [= <- <-] & Hz). simpl.
    destruct (zip_in_lookup _ _ _ _ Hz) as (i & t & Hi & Hr).
    exists i, t. eauto.
Qed.

(** X11.  A future never holds anything but what was computed for its
    own request: if it is finished, its request is in a batch that was
    handed to [predict_func], and it holds the exception of that call,
    or the result at the position of the request in the batch. *)
Theorem future_holds_its_own_result (sched : list event) f v :
  futures (run init sched) !! f = Some (Finished v) ->
  exists k b i t,
    log (run init sched) !! k = Some b
    /\ b !! i = Some (t, f)
    /\ In (t, f) (requests sched)
    /\ match predict_func k (map fst b) with
       | inl e => v = inl e
       | inr rs => exists r, rs !! i = Some r /\ v = inr r
       end.
Proof.
  intros Hf. destruct (finished_is_due sched f v Hf)
    as (k & b & i & t & Hk & Hi & Hv).
  exists k, b, i, t. repeat split; auto.
  rewrite <- (good_fifo
                (inv_good
                   (BatcherFacts.inv_run predict_func batch_size sched))).
  apply in_or_app. left. apply in_concat. exists b. split.
  - apply list_elem_of_In. eapply list_elem_of_lookup_2, Hk.
  - apply list_elem_of_In. eapply list_elem_of_lookup_2, Hi.
Qed.

End Worker.

(** *** The properties at work *)

Lemma finished_future_never_changes_witness :
  let sched := [Submit (lit "ok"); WorkerGet; WorkerGet; WorkerGet] in
  futures one_done !! 0%nat = Some (Finished (inl (OtherError 9)))
  /\ futures (run Service.sizes 2 one_done sched) !! 0%nat
     = Some (Finished (inl (OtherError 9))).
Proof.
  split; [reflexivity|].
  apply (finished_future_never_changes Service.sizes 2 one_done).
  reflexivity.
Defined.

Lemma done_future_ends_worker_witness :
  let its := queue one_done in
  In 0%nat (map snd its)
  /\ futures one_done !! 0%nat = Some (Finished (inl (OtherError 9)))
  /\ (forall rs,
        Service.sizes (length (log one_done)) (map fst its) = inr rs ->
        (length its <= length rs)%nat)
  /\ (Service.sizes (length (log one_done)) (map fst its)
      <> inl StopIteration ->
      dead (process_batch Service.sizes its [] one_done)
      = Some InvalidStateError)
  /\ (exists e,
        dead (process_batch Service.sizes its [] one_done) = Some e
        /\ (e = InvalidStateError \/ e = stop_iteration_refused))
  /\ futures (process_batch Service.sizes its [] one_done) !! 0%nat
     = Some (Finished (inl (OtherError 9))).
Proof.
  assert (Hin : In 0%nat (map snd (queue one_done))) by (left; reflexivity).
  assert (Hf : futures one_done !! 0%nat
               = Some (Finished (inl (OtherError 9)))) by reflexivity.
  assert (Hlen : forall rs,
             Service.sizes (length (log one_done))
                           (map fst (queue one_done)) = inr rs ->
             (length (queue one_done) <= length rs)%nat).
  { intros rs [= <-]. simpl. lia. }
  repeat (split; [assumption|]).
  exact (done_future_ends_worker Service.sizes one_done (queue one_done) []
           0%nat (inl (OtherError 9)) Hin Hf Hlen).
Defined.

Lemma dead_worker_serves_nothing_witness :
  let st := run Service.sizes 2 one_done [WorkerGet; WorkerGet] in
  let sched := [Submit (lit "ok"); WorkerGet; WorkerGet] in
  dead st = Some InvalidStateError
  /\ dead (run Service.sizes 2 st sched) = Some InvalidStateError
  /\ log (run Service.sizes 2 st sched) = log st
  /\ calls (run Service.sizes 2 st sched) = calls st
  /\ items (run Service.sizes 2 st sched) = items st
  /\ queue (run Service.sizes 2 st sched)
     = queue st ++ requests_from (length (futures st)) sched
  /\ futures (run Service.sizes 2 st sched)
     = futures st
       ++ repeat Pending (length (requests_from (length (futures st)) sched)).
Proof.
  split; [reflexivity|].
  apply (dead_worker_serves_nothing Service.sizes 2
           (run Service.sizes 2 one_done [WorkerGet; WorkerGet])
           InvalidStateError).
  reflexivity.
Defined.

Lemma batch_is_full_or_timed_out_witness :
  let st := run Service.sizes 2 init (Service.three_at_once ++ [WorkerGet]) in
  let b := [(lit "great product", 0%nat); (lit "terrible", 1%nat)] in
  log (worker_get Service.sizes 2 st) = log st ++ [b]
  /\ ((queue st = [] /\ items st = Some b)
      \/ (exists x q,
            queue st = x :: q
            /\ b = default [] (items st) ++ [x]
            /\ 2 <= Z.of_nat (length b)
            /\ (1 <= 2 -> Z.of_nat (length b) = 2))).
Proof.
  split; [reflexivity|].
  apply (batch_is_full_or_timed_out Service.sizes 2
           (Service.three_at_once ++ [WorkerGet])
           [(lit "great product", 0%nat); (lit "terrible", 1%nat)]).
  reflexivity.
Defined.

Lemma future_holds_its_own_result_witness :
  let sched := Service.three_at_once ++ [WorkerGet; WorkerGet] in
  let st := run Service.sizes 2 init sched in
  futures st !! 0%nat = Some (Finished (inr 13%nat))
  /\ exists k b i t,
       log st !! k = Some b
       /\ b !! i = Some (t, 0%nat)
       /\ In (t, 0%nat) (requests sched)
       /\ match Service.sizes k (map fst b) with
          | inl e => @inr exn nat 13%nat = inl e
          | inr rs => exists r, rs !! i = Some r /\ @inr exn nat 13%nat = inr r
          end.
Proof.
  split; [reflexivity|].
  apply (future_holds_its_own_result Service.sizes 2
           (Service.three_at_once ++ [WorkerGet; WorkerGet])
           0%nat (inr 13%nat)).
  reflexivity.
Defined.

End BatcherMore.

(** ** The analyzer: first boot, reload, and the analyzer without pipeline *)

Module AnalyzerMore.

Import Analyzer Notions.

(** Runs [load_model] by cases on what the library calls return. *)
Ltac run_load :=
  unfold load_model, load_body, try_except, bind, self, emit, call, ret,
    raise, get_pipeline, del_pipeline, write_pipeline.

Section Facts.

Context {Tokenizer Model Pipeline : Type}.
Abbreviation world := (world Tokenizer Model Pipeline).
Abbreviation analyzer := (analyzer Pipeline).

(** X7.  At first boot ([self.pipeline] is [None]) [load_model] either
    returns, and then the tokenizer, the model and the pipeline were all
    obtained and [self.pipeline] is the new pipeline, nothing having been
    deleted; or it raises the exception of the first library call that
    failed, after logging it, and the analyzer is as it was. *)
Theorem first_boot_outcome (w : world) (a : analyzer) :
  pipeline a = PyNone ->
  match load_model w (a, []) with
  | (a', efs, inr _) =>
      exists tok m p,
        tokenizer_from_pretrained w (source_of w a) = inr tok
        /\ model_from_pretrained w (model_class_of (framework a))
             (source_of w a) (from_pt_of w a) = inr m
        /\ make_pipeline w m tok (framework a) = inr p
        /\ a' = Build_analyzer (model_name a) (framework a) (model_path a)
                               (Obj p)
        /\ ~ In DelPipeline efs
        /\ List.last efs (Log Loaded) = Log Loaded
  | (a', efs, inl e) =>
      a' = a
      /\ List.last efs (Log Loaded) = Log (ErrorLoading e)
      /\ (tokenizer_from_pretrained w (source_of w a) = inl e
          \/ (exists tok,
                tokenizer_from_pretrained w (source_of w a) = inr tok
                /\ model_from_pretrained w (model_class_of (framework a))
                     (source_of w a) (from_pt_of w a) = inl e)
          \/ (exists tok m,
                tokenizer_from_pretrained w (source_of w a) = inr tok
                /\ model_from_pretrained w (model_class_of (framework a))
                     (source_of w a) (from_pt_of w a) = inr m
                /\ make_pipeline w m tok (framework a) = inl e))
  end.
Proof.
  intros Hp. unfold source_of, from_pt_of. run_load.
  destruct (fine_tuned_present w a); destruct a as [nm fw path pl];
    simpl in *; subst pl;
    (destruct (tokenizer_from_pretrained w _) as [e|tok] eqn:Ht; simpl;
     [auto|]);
    (destruct (model_from_pretrained w _ _ _) as [e|m] eqn:Hm; simpl;
     [split; [reflexivity|]; split; [reflexivity|]; right; left; eauto|]);
    (destruct (make_pipeline w m tok fw) as [e|p] eqn:Hk; simpl;
     [split; [reflexivity|]; split; [reflexivity|]; right; right; eauto|]);
    exists tok, m, p; repeat split; auto;
    intros H; simpl in H; intuition discriminate.
Qed.

(** X8.  A reload on an analyzer that has a pipeline, when the tokenizer
    or the model fails to load: [load_model] returns without raising,
    the analyzer keeps the pipeline it had, the failure is the last thing
    logged, and neither [del self.pipeline] nor [pipeline(...)] was
    reached. *)
Theorem reload_keeps_pipeline_when_load_fails
        (w : world) (a : analyzer) (p : Pipeline) (e : exn) :
  pipeline a = Obj p ->
  (tokenizer_from_pretrained w (source_of w a) = inl e
   \/ (exists tok, tokenizer_from_pretrained w (source_of w a) = inr tok)
      /\ model_from_pretrained w (model_class_of (framework a))
           (source_of w a) (from_pt_of w a) = inl e) ->
  exists efs,
    load_model w (a, []) = ((a, efs), inr tt)
    /\ List.last efs (Log Loaded) = Log (ErrorLoading e)
    /\ ~ In DelPipeline efs
    /\ forall fw, ~ In (MakePipeline fw) efs.
Proof.
  intros Hp H. unfold source_of, from_pt_of in H. run_load.
  destruct (fine_tuned_present w a); destruct a as [nm fw path pl];
    simpl in *; subst pl.
  - destruct H as [H | [[tok Ht] H]].
    + rewrite H. simpl. eexists. split; [reflexivity|].
      split; [reflexivity|].
      split; [|intros fw']; intros Hin; simpl in Hin; intuition discriminate.
    + rewrite Ht. simpl. rewrite H. simpl. eexists. split; [reflexivity|].
      split; [reflexivity|].
      split; [|intros fw']; intros Hin; simpl in Hin; intuition discriminate.
  - destruct H as [H | [[tok Ht] H]].
    + rewrite H. simpl. eexists. split; [reflexivity|].
      split; [reflexivity|].
      split; [|intros fw']; intros Hin; simpl in Hin; intuition discriminate.
    + rewrite Ht. simpl. rewrite H. simpl. eexists. split; [reflexivity|].
      split; [reflexivity|].
      split; [|intros fw']; intros Hin; simpl in Hin; intuition discriminate.
Qed.

(** X9.  A reload on an analyzer that has a pipeline, when the three
    library calls succeed: the tokenizer and the model are loaded first,
    only then the old pipeline is deleted and the new one built and put
    in its place; nothing is logged as an error and [load_model]
    returns. *)
Theorem reload_replaces_pipeline (w : world) (a : analyzer)
        (p0 p : Pipeline) (tok : Tokenizer) (m : Model) :
  pipeline a = Obj p0 ->
  tokenizer_from_pretrained w (source_of w a) = inr tok ->
  model_from_pretrained w (model_class_of (framework a))
    (source_of w a) (from_pt_of w a) = inr m ->
  make_pipeline w m tok (framework a) = inr p ->
  load_model w (a, [])
  = ((Build_analyzer (model_name a) (framework a) (model_path a) (Obj p),
      [Log (if fine_tuned_present w a
            then LoadingFineTuned else LoadingPreTrained);
       TokenizerFromPretrained (source_of w a);
       ModelFromPretrained (model_class_of (framework a))
                           (source_of w a) (from_pt_of w a);
       DelPipeline; MakePipeline (framework a); Log Loaded]),
     inr tt).
Proof.
  intros Hp. unfold source_of, from_pt_of. run_load.
  destruct (fine_tuned_present w a); destruct a as [nm fw path pl];
    simpl in *; subst pl; intros Ht Hm Hk;
    rewrite Ht; simpl; rewrite Hm; simpl; rewrite Hk; reflexivity.
Qed.

(** X10.  An analyzer whose [pipeline] attribute has been deleted stays
    so: every [load_model] raises [AttributeError] and leaves the
    analyzer as it is, whatever the library calls return, and every
    [_predict_batch] raises [AttributeError] without calling anything. *)
Theorem deleted_pipeline_is_for_ever (w : world) (a : analyzer) :
  pipeline a = Unset ->
  (exists efs,
     load_model w (a, []) = ((a, efs), inl (AttributeError (lit "pipeline")))
     /\ ~ In (Log Loaded) efs)
  /\ forall texts efs,
       predict_batch w texts (a, efs)
       = ((a, efs), inl (AttributeError (lit "pipeline"))).
Proof.
  intros Hp. split.
  - run_load.
    destruct (fine_tuned_present w a); destruct a as [nm fw path pl];
      simpl in *; subst pl;
      (destruct (tokenizer_from_pretrained w _) as [e|tok]; simpl;
       [eexists; split; [reflexivity|];
        intros Hin; simpl in Hin; intuition discriminate|]);
      (destruct (model_from_pretrained w _ _ _) as [e|m]; simpl;
       eexists; (split; [reflexivity|]);
       intros Hin; simpl in Hin; intuition discriminate).
  - intros texts efs. unfold predict_batch, bind, get_pipeline.
    rewrite Hp. reflexivity.
Qed.

End Facts.

(** *** The properties at work *)

Lemma first_boot_outcome_witness :
  let w := Service.pipeline_works in
  let a := new_analyzer (model_name Service.serving) (lit "pt") in
  pipeline a = PyNone
  /\ exists tok m p,
       tokenizer_from_pretrained w (source_of w a) = inr tok
       /\ model_from_pretrained w (model_class_of (framework a))
            (source_of w a) (from_pt_of w a) = inr m
       /\ make_pipeline w m tok (framework a) = inr p
       /\ fst (fst (load_model w (a, [])))
          = Build_analyzer (model_name a) (framework a) (model_path a)
                           (Obj p)
       /\ ~ In DelPipeline (snd (fst (load_model w (a, []))))
       /\ List.last (snd (fst (load_model w (a, [])))) (Log Loaded)
          = Log Loaded.
Proof.
  split; [reflexivity|].
  exact (first_boot_outcome Service.pipeline_works
           (new_analyzer (model_name Service.serving) (lit "pt")) eq_refl).
Defined.

Lemma reload_keeps_pipeline_when_load_fails_witness :
  let w := tokenizer_fails in
  let a := Service.serving in
  pipeline a = Obj 0%nat
  /\ tokenizer_from_pretrained w (source_of w a) = inl (OtherError 2)
  /\ exists efs,
       load_model w (a, []) = ((a, efs), inr tt)
       /\ List.last efs (Log Loaded) = Log (ErrorLoading (OtherError 2))
       /\ ~ In DelPipeline efs
       /\ forall fw, ~ In (MakePipeline fw) efs.
Proof.
  split; [reflexivity|]. split; [reflexivity|].
  apply (reload_keeps_pipeline_when_load_fails tokenizer_fails
           Service.serving 0%nat (OtherError 2)).
  - reflexivity.
  - left. reflexivity.
Defined.

Lemma reload_replaces_pipeline_witness :
  let w := Service.pipeline_works in
  let a := Service.serving in
  pipeline a = Obj 0%nat
  /\ tokenizer_from_pretrained w (source_of w a) = inr tt
  /\ model_from_pretrained w (model_class_of (framework a))
       (source_of w a) (from_pt_of w a) = inr tt
  /\ make_pipeline w tt tt (framework a) = inr 1%nat
  /\ load_model w (a, [])
     = ((Build_analyzer (model_name a) (framework a) (model_path a)
                        (Obj 1%nat),
         [Log (if fine_tuned_present w a
               then LoadingFineTuned else LoadingPreTrained);
          TokenizerFromPretrained (source_of w a);
          ModelFromPretrained (model_class_of (framework a))
                              (source_of w a) (from_pt_of w a);
          DelPipeline; MakePipeline (framework a); Log Loaded]),
        inr tt).
Proof.
  repeat (split; [reflexivity|]).
  apply (reload_replaces_pipeline Service.pipeline_works Service.serving
           0%nat 1%nat tt tt); reflexivity.
Defined.

Lemma deleted_pipeline_is_for_ever_witness :
  let w := Service.pipeline_works in
  let a := without_pipeline in
  pipeline a = Unset
  /\ (exists efs,
        load_model w (a, [])
        = ((a, efs), inl (AttributeError (lit "pipeline")))
        /\ ~ In (Log Loaded) efs)
  /\ forall texts efs,
       predict_batch w texts (a, efs)
       = ((a, efs), inl (AttributeError (lit "pipeline"))).
Proof.
  split; [reflexivity|].
  apply (deleted_pipeline_is_for_ever Service.pipeline_works
           without_pipeline).
  reflexivity.
Defined.

End AnalyzerMore.

(** ** The service: what a caller gets *)

Module ServiceFacts.

Import Batcher Analyzer Facade Service.

Lemma map_lookup_inv {A B} (g : A -> B) (l : list A) (i : nat) (y : B) :
  map g l !! i = Some y -> exists x, l !! i = Some x /\ y = g x.
Proof.
  revert i. induction l as [|x l IH]; intros [|i]; simpl; try discriminate.
  - intros [= <-]. eauto.
  - apply IH.
Qed.

Lemma convert_label (raw : raw_result) :
  label (convert raw) = lit "positive" \/ label (convert raw) = lit "negative".
Proof.
  unfold convert. simpl.
  destruct (str_eqb (upper (raw_label raw)) (lit "POSITIVE")); auto.
Qed.

Section Service.

Context {Tokenizer Model Pipeline : Type}.
Variable w : world Tokenizer Model Pipeline.
Variable an : nat -> analyzer Pipeline.
Variable batch_size : Z.

(** How [_predict_batch] fails. *)
Lemma predict_batch_raises (a : analyzer Pipeline) (texts : list str)
      (s' : analyzer Pipeline * list effect) (e : exn) :
  predict_batch w texts (a, []) = (s', inl e) ->
  (pipeline a = PyNone /\ e = RuntimeError (lit "Model is not loaded."))
  \/ (pipeline a = Unset /\ e = AttributeError (lit "pipeline"))
  \/ (exists p, pipeline a = Obj p /\ call_pipeline w p texts = inl e).
Proof.
  unfold predict_batch, bind, get_pipeline, try_except, ret, raise, emit.
  destruct (pipeline a) as [| |p] eqn:Hp.
  - intros [= _ <-]. auto.
  - intros [= _ <-]. auto.
  - destruct (call_pipeline w p texts) as [e'|raws] eqn:Hc; try discriminate.
    intros [= _ <-]. right. right. eauto.
Qed.

(** X12.  In the service, where the batcher calls [_predict_batch],
    whatever a caller of [predict] gets was made for its own text.  A
    result is the conversion of what the pipeline returned at the
    position of the text in its batch, so its label is positive or
    negative, and [predict] wraps it unchanged in a [SentimentResult].
    An exception is the [RuntimeError] of an analyzer without model, the
    [AttributeError] of an analyzer whose pipeline was deleted, or the
    exception the pipeline raised on the batch. *)
Theorem caller_gets_its_own_label (sched : list event) (f : fid)
        (v : exn + prediction) :
  let st := run (analyzer_predict_func w an) batch_size init sched in
  futures st !! f = Some (Finished v) ->
  exists k b i t,
    log st !! k = Some b
    /\ b !! i = Some (t, f)
    /\ match v with
       | inr r =>
           (label r = lit "positive" \/ label r = lit "negative")
           /\ resume v = inr (Build_SentimentResult (label r) (score r))
           /\ exists p raws raw,
                pipeline (an k) = Obj p
                /\ call_pipeline w p (map fst b) = inr raws
                /\ raws !! i = Some raw
                /\ r = convert raw
       | inl e =>
           resume v = inl e
           /\ ((pipeline (an k) = PyNone
                /\ e = RuntimeError (lit "Model is not loaded."))
               \/ (pipeline (an k) = Unset
                   /\ e = AttributeError (lit "pipeline"))
               \/ (exists p, pipeline (an k) = Obj p
                             /\ call_pipeline w p (map fst b) = inl e))
       end.
Proof.
  cbv zeta. intros Hf.
  destruct (BatcherMore.finished_is_due _ _ _ _ _ Hf)
    as (k & b & i & t & Hk & Hi & Hv).
  exists k, b, i, t. split; [exact Hk|]. split; [exact Hi|].
  unfold analyzer_predict_func in Hv.
  destruct (predict_batch w (map fst b) (an k, [])) as [s' out] eqn:E.
  simpl in Hv. destruct out as [e|rs].
  - subst v. split; [reflexivity|]. eapply predict_batch_raises, E.
  - destruct Hv as (r & Hr & ->).
    destruct (AnalyzerFacts.predict_batch_returns _ _ _ _ _ _ E)
      as (p & raws & Hp & Hc & -> & _).
    apply map_lookup_inv in Hr. destruct Hr as (raw & Hraw & ->).
    split; [apply convert_label|]. split; [reflexivity|].
    exists p, raws, raw. auto.
Qed.

End Service.

(** *** The property at work *)

Lemma caller_gets_its_own_label_witness :
  let w := pipeline_works in
  let an := fun _ : nat => serving in
  let sched := three_at_once ++ [WorkerGet; WorkerGet] in
  let st := run (analyzer_predict_func w an) 2 init sched in
  let r := Prediction (lit "positive") (PyFloat 0) in
  futures st !! 0%nat = Some (Finished (inr r))
  /\ exists k b i t,
       log st !! k = Some b
       /\ b !! i = Some (t, 0%nat)
       /\ (label r = lit "positive" \/ label r = lit "negative")
       /\ resume (inr r) = inr (Build_SentimentResult (label r) (score r))
       /\ exists p raws raw,
            pipeline (an k) = Obj p
            /\ call_pipeline w p (map fst b) = inr raws
            /\ raws !! i = Some raw
            /\ r = convert raw.
Proof.
  split; [reflexivity|].
  apply (caller_gets_its_own_label pipeline_works (fun _ : nat => serving) 2
           (three_at_once ++ [WorkerGet; WorkerGet]) 0%nat
           (inr (Prediction (lit "positive") (PyFloat 0)))).
  reflexivity.
Defined.

End ServiceFacts.

(** ** [load_dataset_from_jsonl] *)

Module FinetuneFacts.

Import Finetune.

Lemma comprehension_inr {A B} (f : A -> error + B) (l : list A)
      (ys : list B) :
  comprehension f l = inr ys -> Forall2 (fun x y => f x = inr y) l ys.
Proof.
  revert ys. induction l as [|x l IH]; intros ys; simpl.
  - intros [= <-]. constructor.
  - destruct (f x) as [e|y] eqn:Hx; [discriminate|].
    destruct (comprehension f l) as [e|ys']; [discriminate|].
    intros [= <-]. constructor; auto.
Qed.

Lemma comprehension_total {A B} (f : A -> error + B) (l : list A) :
  Forall (fun x => exists y, f x = inr y) l ->
  exists ys, comprehension f l = inr ys.
Proof.
  induction 1 as [|x l [y Hy] _ [ys IH]]; simpl.
  - eauto.
  - rewrite Hy, IH. eauto.
Qed.

(** The exception of a comprehension is that of the first element on
    which the expression raises. *)
Lemma comprehension_inl {A B} (f : A -> error + B) (l : list A) (e : error) :
  comprehension f l = inl e ->
  exists pre x post,
    l = pre ++ x :: post /\ f x = inl e
    /\ Forall (fun z => exists y, f z = inr y) pre.
Proof.
  induction l as [|x l IH]; simpl; [discriminate|].
  destruct (f x) as [e'|y] eqn:Hx.
  - intros [= <-]. exists [], x, l. auto.
  - destruct (comprehension f l) as [e2|ys]; [|discriminate].
    intros [= <-]. destruct (IH eq_refl) as (pre & z & post & -> & Hz & Hpre).
    exists (x :: pre), z, post. repeat split; auto.
    constructor; eauto.
Qed.

Lemma subscript_inr (item : json) (key : str) (v : json) :
  subscript item key = inr v <->
  exists m, item = JObject m /\ m !! key = Some v.
Proof.
  unfold subscript. split.
  - destruct item as [| | | | | |m]; try discriminate.
    destruct (m !! key) as [v'|] eqn:Hk; [|discriminate].
    intros [= <-]. eauto.
  - intros (m & -> & ->). reflexivity.
Qed.

Lemma subscript_error (item : json) (key : str) (e : error) :
  subscript item key = inl e -> e = TypeError \/ e = KeyError key.
Proof.
  unfold subscript. destruct item as [| | | | | |m];
    try (intros [= <-]; auto; fail).
  destruct (m !! key); [discriminate|]. intros [= <-]. auto.
Qed.

Lemma label_of_inr (item : json) (z : Z) :
  label_of item = inr z <->
  exists l, subscript item (lit "label") = inr l
            /\ z = match l with
                   | JStr s => if str_eqb s (lit "positive") then 1 else 0
                   | _ => 0
                   end.
Proof.
  unfold label_of. split.
  - destruct (subscript item (lit "label")) as [e|l]; [discriminate|].
    destruct l; intros [= <-]; eauto.
  - intros (l & -> & ->). destruct l; reflexivity.
Qed.

Lemma usable_iff (item : json) :
  usable item <->
  (exists t, subscript item (lit "text") = inr t)
  /\ (exists z, label_of item = inr z).
Proof.
  split.
  - intros (m & t & l & -> & Ht & Hl). split.
    + exists t. apply subscript_inr. eauto.
    + eexists. apply label_of_inr. exists l. split; [|reflexivity].
      apply subscript_inr. eauto.
  - intros [[t Ht] [z Hz]]. apply subscript_inr in Ht.
    destruct Ht as (m & -> & Ht). apply label_of_inr in Hz.
    destruct Hz as (l & Hl & _). apply subscript_inr in Hl.
    destruct Hl as (m' & [= <-] & Hl). exists m, t, l. auto.
Qed.

(** X14.  When the two lists of [load_dataset_from_jsonl] are built, the
    function hands them to [Dataset.from_dict] and returns or raises what
    that call does.  The two columns have one entry for each parsed line,
    in the order of the lines: each line is a dict with the keys text and
    label, the text column holds its text, and the label column holds 1
    when its label is the string positive, spelled exactly so, and 0 for
    anything else. *)
Theorem load_dataset_columns {Dataset : Type}
        (from_dict : columns -> error + Dataset)
        (data : list json) (cols : columns) :
  build_columns data = inr cols ->
  load_dataset_from_jsonl from_dict data = from_dict cols
  /\ length (text cols) = length data
  /\ length (label cols) = length data
  /\ forall i item, data !! i = Some item ->
       exists m t l,
         item = JObject m
         /\ m !! lit "text" = Some t /\ m !! lit "label" = Some l
         /\ text cols !! i = Some t
         /\ (l = JStr (lit "positive") -> label cols !! i = Some 1)
         /\ (l <> JStr (lit "positive") -> label cols !! i = Some 0).
Proof.
  intros Hb. split; [unfold load_dataset_from_jsonl; rewrite Hb; reflexivity|].
  revert Hb. unfold build_columns.
  destruct (comprehension _ data) as [e|texts] eqn:Ht; [discriminate|].
  destruct (comprehension label_of data) as [e|labels] eqn:Hl;
    [discriminate|].
  intros [= <-]. simpl.
  apply comprehension_inr in Ht. apply comprehension_inr in Hl.
  split; [symmetry; eapply Forall2_length, Ht|].
  split; [symmetry; eapply Forall2_length, Hl|].
  intros i item Hi.
  destruct (Forall2_lookup_l _ _ _ _ _ Ht Hi) as (t & Hti & Hit).
  destruct (Forall2_lookup_l _ _ _ _ _ Hl Hi) as (z & Hzi & Hiz).
  apply subscript_inr in Hit. destruct Hit as (m & -> & Hmt).
  apply label_of_inr in Hiz. destruct Hiz as (l & Hsl & ->).
  apply subscript_inr in Hsl. destruct Hsl as (m' & [= <-] & Hml).
  exists m, t, l. repeat split; auto.
  - intros ->. exact Hzi.
  - intros Hne. rewrite Hzi. f_equal.
    destruct l as [| | | |s| |]; try reflexivity.
    unfold str_eqb. rewrite bool_decide_eq_false_2; [reflexivity|].
    intros ->. apply Hne. reflexivity.
Qed.

(** X15.  [load_dataset_from_jsonl] reaches [Dataset.from_dict] exactly
    when every parsed line is a dict with the keys text and label; what
    it returns or raises is then up to that call.  Otherwise it raises
    before the call, whatever [Dataset.from_dict] would do: [TypeError]
    or a [KeyError] for one of the two keys; the text column is built
    first, so a [KeyError] for label means every line has a text. *)
Theorem load_dataset_succeeds_iff {Dataset : Type}
        (from_dict : columns -> error + Dataset) (data : list json) :
  (Forall usable data
   <-> exists cols,
         build_columns data = inr cols
         /\ load_dataset_from_jsonl from_dict data = from_dict cols)
  /\ forall e, build_columns data = inl e ->
       load_dataset_from_jsonl from_dict data = inl e
       /\ (e = TypeError \/ e = KeyError (lit "text")
           \/ e = KeyError (lit "label"))
       /\ (e = KeyError (lit "label") ->
           Forall (fun item =>
                     exists m t, item = JObject m
                                 /\ m !! lit "text" = Some t) data).
Proof.
  assert (Hreach : forall cols, build_columns data = inr cols ->
            load_dataset_from_jsonl from_dict data = from_dict cols).
  { intros cols Hb. unfold load_dataset_from_jsonl. rewrite Hb.
    reflexivity. }
  split; [split|].
  2: { intros (cols & H & _). unfold build_columns in H.
    destruct (comprehension _ data) as [e|texts] eqn:Ht; [discriminate|].
    destruct (comprehension label_of data) as [e|labels] eqn:Hl;
      [discriminate|].
    apply comprehension_inr in Ht. apply comprehension_inr in Hl.
    apply Forall_lookup. intros i item Hi. apply usable_iff.
    destruct (Forall2_lookup_l _ _ _ _ _ Ht Hi) as (t & _ & Hit).
    destruct (Forall2_lookup_l _ _ _ _ _ Hl Hi) as (z & _ & Hiz).
    eauto. }
  - intros Hall.
    assert (Hb : exists cols, build_columns data = inr cols).
    { unfold build_columns.
      destruct (comprehension_total
                  (fun item => subscript item (lit "text")) data)
        as [texts ->].
      { eapply Forall_impl; [exact Hall|]. intros item Hu.
        apply usable_iff in Hu. tauto. }
      destruct (comprehension_total label_of data) as [labels ->].
      { eapply Forall_impl; [exact Hall|]. intros item Hu.
        apply usable_iff in Hu. tauto. }
      eauto. }
    destruct Hb as [cols Hb]. exists cols. auto.
  - intros e H. split.
    { unfold load_dataset_from_jsonl. rewrite H. reflexivity. }
    unfold build_columns in H.
    destruct (comprehension _ data) as [e'|texts] eqn:Ht.
    + injection H as <-. apply comprehension_inl in Ht.
      destruct Ht as (pre & x & post & _ & Hx & _).
      apply subscript_error in Hx. split; [tauto|].
      intros ->. destruct Hx as [Hx | Hx]; discriminate.
    + destruct (comprehension label_of data) as [e'|labels] eqn:Hl;
        [|discriminate].
      injection H as <-. apply comprehension_inl in Hl.
      destruct Hl as (pre & x & post & _ & Hx & _).
      split.
      * unfold label_of in Hx.
        destruct (subscript x (lit "label")) as [e2|l] eqn:Hs.
        -- injection Hx as <-. apply subscript_error in Hs. tauto.
        -- destruct l; discriminate.
      * intros _. apply comprehension_inr in Ht.
        apply Forall_lookup. intros i item Hi.
        destruct (Forall2_lookup_l _ _ _ _ _ Ht Hi) as (t & _ & Hit).
        apply subscript_inr in Hit. destruct Hit as (m & -> & Hm). eauto.
Qed.

(** *** The property at work *)

Lemma load_dataset_columns_witness :
  let cols := Columns [JStr (lit "great product"); JStr (lit "terrible")]
                      [1; 0] in
  build_columns Notions.two_lines = inr cols
  /\ load_dataset_from_jsonl Notions.strings_only Notions.two_lines
     = Notions.strings_only cols
  /\ length (text cols) = length Notions.two_lines
  /\ length (label cols) = length Notions.two_lines
  /\ forall i item, Notions.two_lines !! i = Some item ->
       exists m t l,
         item = JObject m
         /\ m !! lit "text" = Some t /\ m !! lit "label" = Some l
         /\ text cols !! i = Some t
         /\ (l = JStr (lit "positive") -> label cols !! i = Some 1)
         /\ (l <> JStr (lit "positive") -> label cols !! i = Some 0).
Proof.
  assert (H : build_columns Notions.two_lines
              = inr (Columns [JStr (lit "great product");
                              JStr (lit "terrible")] [1; 0]))
    by (vm_compute; reflexivity).
  split; [exact H|].
  exact (load_dataset_columns Notions.strings_only Notions.two_lines _ H).
Defined.

End FinetuneFacts.
